(** * textstat: readability counts and the consensus grade

    A shallow embedding of the counting and scoring code of textstat
    (backend/counts, backend/metrics and the public [textstatistics] class)
    and the properties its specification states about it.

    The file has three layers:
    - [Py]: the parts of the Python runtime the code relies on (strings of
      code points, [str.split], exceptions, binary64 floats with [math.floor]
      and [math.ceil], integer true division, [collections.Counter] and the
      fragment of [re] the patterns of the package need);
    - the package itself, one definition per source function, inside a
      section whose variables are the collaborators that live outside the
      modules embedded here (Unicode tables, hyphenation, the other
      formulas);
    - the properties. *)

From Stdlib Require Import ZArith NArith List Bool Lia String Ascii.
From Stdlib Require Import Floats.
From Stdlib Require Import DecimalString.
Import ListNotations.

Set Warnings "-inexact-float".
Open Scope Z_scope.

(* ================================================================== *)
(** * The Python runtime *)
(* ================================================================== *)

Module Py.

(** ** Strings

    A [str] is a sequence of Unicode code points. A character is a
    string of length one, as in Python. *)

Definition codepoint := N.
Definition pystr := list codepoint.

Definition cp (a : ascii) : codepoint := N_of_ascii a.

Fixpoint py (s : string) : pystr :=
  match s with
  | EmptyString => []
  | String a s' => cp a :: py s'
  end.

Definition len {A} (l : list A) : Z := Z.of_nat (List.length l).

Definition str_eqb (a b : pystr) : bool :=
  if list_eq_dec N.eq_dec a b then true else false.

Definition mem (c : codepoint) (cs : list codepoint) : bool :=
  existsb (N.eqb c) cs.

Definition str_mem (s : pystr) (ss : list pystr) : bool :=
  existsb (str_eqb s) ss.

(** [str(n)] for an [int]. *)
Definition str_of_int (z : Z) : pystr :=
  py (NilEmpty.string_of_int (Z.to_int z)).

(** ** White space

    The code points for which [str.isspace] holds; [str.split()] and the
    class [\s] of [re] use the same set. *)

Definition isspace (c : codepoint) : bool :=
  ((0x09 <=? c) && (c <=? 0x0D) || (0x1C <=? c) && (c <=? 0x20)
   || (c =? 0x85) || (c =? 0xA0) || (c =? 0x1680)
   || (0x2000 <=? c) && (c <=? 0x200A)
   || (c =? 0x2028) || (c =? 0x2029) || (c =? 0x202F)
   || (c =? 0x205F) || (c =? 0x3000))%N.

(** [s.split()]: the maximal runs of characters that are not white space.
    [w] is the run being read, last character first. *)
Fixpoint split_from (w : pystr) (t : pystr) : list pystr :=
  match t with
  | [] => match w with [] => [] | _ => [rev w] end
  | c :: r =>
      if isspace c
      then match w with
           | [] => split_from [] r
           | _ => rev w :: split_from [] r
           end
      else split_from (c :: w) r
  end.

Definition split (t : pystr) : list pystr := split_from [] t.

(** ** Exceptions

    A computation returns a value or raises. *)

Inductive exn := ZeroDivisionError | OverflowError | ValueError | IndexError | LookupError.

Inductive res (A : Type) :=
| Ret (a : A)
| Raise (e : exn).
Arguments Ret {A} a.
Arguments Raise {A} e.

Definition bind {A B} (m : res A) (k : A -> res B) : res B :=
  match m with
  | Ret a => k a
  | Raise e => Raise e
  end.

Notation "x <- m ;; k" := (bind m (fun x => k))
  (at level 61, m at next level, right associativity).

(** [try: body except ZeroDivisionError: handler]. *)
Definition except_ZeroDivisionError {A} (body handler : res A) : res A :=
  match body with
  | Raise ZeroDivisionError => handler
  | other => other
  end.

(** ** Floats

    A Python [float] is an IEEE 754 binary64 value: Rocq's primitive
    [float], with the operations [+], [-], [*] and the comparisons of the
    hardware. Literals are read to the nearest binary64 value, as Python
    reads them. *)

Definition int_of_mantissa (s : bool) (m : positive) : Z :=
  if s then Zneg m else Zpos m.

(** [math.floor(x)]: the value is [(+/-) m * 2^e], and shifting an integer
    to the right rounds towards minus infinity. *)
Definition floor (x : float) : res Z :=
  match Prim2SF x with
  | S754_zero _ => Ret 0
  | S754_finite s m e => Ret (Z.shiftl (int_of_mantissa s m) e)
  | S754_infinity _ => Raise OverflowError
  | S754_nan => Raise ValueError
  end.

(** [math.ceil(x)]. *)
Definition ceil (x : float) : res Z :=
  match Prim2SF x with
  | S754_zero _ => Ret 0
  | S754_finite s m e => Ret (- Z.shiftl (- int_of_mantissa s m) e)
  | S754_infinity _ => Raise OverflowError
  | S754_nan => Raise ValueError
  end.

(** [int(x)] for a float: truncation towards zero. *)
Definition int_of_float (x : float) : res Z :=
  match Prim2SF x with
  | S754_zero _ => Ret 0
  | S754_finite s m e =>
      Ret (if s then - Z.shiftl (Zpos m) e else Z.shiftl (Zpos m) e)
  | S754_infinity _ => Raise OverflowError
  | S754_nan => Raise ValueError
  end.

(** [float(n)] for an [int]: the nearest binary64 value, ties to even. *)
Definition float_of_int (z : Z) : res float :=
  match binary_normalize prec emax z 0 false with
  | S754_infinity _ => Raise OverflowError
  | f => Ret (SF2Prim f)
  end.

Definition SF_of_int (z : Z) : spec_float :=
  match z with
  | Z0 => S754_zero false
  | Zpos p => S754_finite false p 0
  | Zneg p => S754_finite true p 0
  end.

(** [a / b] for two [int]s: the correctly rounded quotient. *)
Definition int_truediv (a b : Z) : res float :=
  if b =? 0 then Raise ZeroDivisionError
  else match SFdiv prec emax (SF_of_int a) (SF_of_int b) with
       | S754_infinity _ => Raise OverflowError
       | q => Ret (SF2Prim q)
       end.

(** [x < n] and [x >= n] for a float and a (small) integer literal. *)
Definition lt (x y : float) : bool := PrimFloat.ltb x y.
Definition ge (x y : float) : bool := PrimFloat.leb y x.

(** ** collections.Counter

    A [Counter] is a dict: it keeps its keys in the order of their first
    insertion, and counting a key again updates its entry in place. *)

Definition Counter := list (Z * Z).

Fixpoint counter_add (k : Z) (d : Counter) : Counter :=
  match d with
  | [] => [(k, 1)]
  | (k', n) :: d' =>
      if k' =? k then (k', n + 1) :: d' else (k', n) :: counter_add k d'
  end.

(** [Counter(iterable)]. *)
Definition counter_of (l : list Z) : Counter :=
  fold_left (fun d k => counter_add k d) l [].

(** [max(items, key=itemgetter(1))]: the first item with the greatest
    count; a later item replaces the best one only when strictly greater. *)
Definition max_by_count (first : Z * Z) (rest : Counter) : Z * Z :=
  fold_left (fun best it => if snd best <? snd it then it else best)
            rest first.

(** [d.most_common(1)]: [heapq.nlargest(1, ...)] is [max] over the items,
    or the empty list for an empty counter. *)
Definition most_common_1 (d : Counter) : list (Z * Z) :=
  match d with
  | [] => []
  | it :: rest => [max_by_count it rest]
  end.

(** ** Regular expressions

    The fragment of [re] that the patterns of the package use: a pattern
    is a sequence of atoms, each a word boundary or a character class,
    possibly repeated greedily. *)

Inductive atom :=
| WordBoundary                          (* \b *)
| Class (p : codepoint -> bool)         (* [...] *)
| ClassPlus (p : codepoint -> bool)     (* [...]+ *)
| ClassStar (p : codepoint -> bool).    (* [...]* *)

Definition regex := list atom.

Section Matching.

(** [\w], as the flag [re.UNICODE] reads it. *)
Variable is_word : codepoint -> bool.

Definition is_word_opt (c : option codepoint) : bool :=
  match c with
  | Some c => is_word c
  | None => false
  end.

(** [\b] holds between a word character and a character that is not
    one, the two ends of the text counting as not one. [prev] is the
    character before the position and [t] the text from the position on. *)
Definition at_boundary (prev : option codepoint) (t : pystr) : bool :=
  xorb (is_word_opt prev) (is_word_opt (hd_error t)).

(** A greedy repetition of a class takes a character whenever it can and
    gives it back when the rest of the pattern, [k], fails after it. *)
Fixpoint greedy (p : codepoint -> bool)
    (k : option codepoint -> pystr -> option pystr)
    (prev : option codepoint) (t : pystr) : option pystr :=
  match t with
  | c :: r =>
      if p c then
        match greedy p k (Some c) r with
        | Some m => Some (c :: m)
        | None => k prev t
        end
      else k prev t
  | [] => k prev t
  end.

(** [match_here re prev t]: the text the pattern matches at the start of
    [t], if it matches there. *)
Fixpoint match_here (re : regex) (prev : option codepoint) (t : pystr)
    {struct re} : option pystr :=
  match re with
  | [] => Some []
  | WordBoundary :: re' =>
      if at_boundary prev t then match_here re' prev t else None
  | Class p :: re' =>
      match t with
      | c :: r =>
          if p c then option_map (cons c) (match_here re' (Some c) r)
          else None
      | [] => None
      end
  | ClassPlus p :: re' =>
      match t with
      | c :: r =>
          if p c
          then option_map (cons c) (greedy p (match_here re') (Some c) r)
          else None
      | [] => None
      end
  | ClassStar p :: re' => greedy p (match_here re') prev t
  end.

(** The scan of [re.findall] and [re.sub]: the leftmost match, then the
    leftmost match after it, and so on. [skip] counts the characters of
    the last match that are still to be passed over. The patterns of the
    package match at least one character, so a match is never empty. *)
Fixpoint findall_from (re : regex) (prev : option codepoint) (t : pystr)
    (skip : nat) : list pystr :=
  match t with
  | [] => []
  | c :: r =>
      match skip with
      | S k => findall_from re (Some c) r k
      | O =>
          match match_here re prev t with
          | Some m => m :: findall_from re (Some c) r (pred (List.length m))
          | None => findall_from re (Some c) r 0
          end
      end
  end.

Definition findall (re : regex) (t : pystr) : list pystr :=
  findall_from re None t 0.

(** [re.sub(re, "", t)]: the text without its matches. *)
Fixpoint sub_empty_from (re : regex) (prev : option codepoint) (t : pystr)
    (skip : nat) : pystr :=
  match t with
  | [] => []
  | c :: r =>
      match skip with
      | S k => sub_empty_from re (Some c) r k
      | O =>
          match match_here re prev t with
          | Some (_ :: m) => sub_empty_from re (Some c) r (List.length m)
          | _ => c :: sub_empty_from re (Some c) r 0
          end
      end
  end.

Definition sub_empty (re : regex) (t : pystr) : pystr :=
  sub_empty_from re None t 0.

End Matching.

End Py.

Import Py.

(* ================================================================== *)
(** * Concrete collaborators *)
(* ================================================================== *)

(** Collaborators to run the package on examples: texts in ASCII, so
    that the Unicode tables are never consulted, words of one syllable
    and formulas that return [0.0]. *)
Module Fixture.

Definition no_table (_ : codepoint) : bool := false.

Definition list_words (text : pystr) : list pystr := split text.

Definition count_syllables (_ _ : pystr) : Z := 1.

Definition count_polysyllable_words (_ _ : pystr) : res Z := Ret 0.

Definition float_pow (x _ : float) : res float := Ret (PrimFloat.sqrt x).

Definition py_round (x : float) (_ : Z) : float := x.

(** The ordinal suffix: "th" for 11, 12 and 13, else by the last digit. *)
Definition get_grade_suffix (grade : Z) : pystr :=
  if existsb (Z.eqb (grade mod 100)) [11; 12; 13] then py "th"
  else if grade mod 10 =? 1 then py "st"
  else if grade mod 10 =? 2 then py "nd"
  else if grade mod 10 =? 3 then py "rd"
  else py "th".

Definition formula_zero (_ _ : pystr) : res float := Ret 0%float.

Definition formula_zero_1 (_ : pystr) : res float := Ret 0%float.

(** A formula that returns a NaN. *)
Definition formula_nan (_ _ : pystr) : res float := Ret nan.

End Fixture.

(* ================================================================== *)
(** * The package *)
(* ================================================================== *)

Section Textstat.

Set Default Proof Using "Type".

(** ** Collaborators outside the embedded modules *)

(** The Unicode database beyond ASCII: which code points are letters
    and which are digits or other numeric characters ([str.isalpha];
    [str.isdecimal], [str.isdigit], [str.isnumeric]). *)
Variable ucd_alpha ucd_numeric : codepoint -> bool.

(** The apostrophe policy [count_words] normalizes under. *)
Variable count_words_rm_apostrophe : bool.

(** [selections.list_words], [counts.count_syllables] and
    [counts.count_polysyllable_words]. *)
Variable list_words : pystr -> list pystr.
Variable count_syllables : pystr -> pystr -> Z.
Variable count_polysyllable_words : pystr -> pystr -> res Z.

(** [x ** y] on floats, as the C library computes it. *)
Variable float_pow : float -> float -> res float.

(** [round(x, n)]. *)
Variable py_round : float -> Z -> float.

(** [utils.get_grade_suffix], the ordinal suffix of a grade. *)
Variable get_grade_suffix : Z -> pystr.

(** The formulas of [metrics] that [text_standard] combines besides
    [smog_index] and [automated_readability_index]. *)
Variable flesch_kincaid_grade : pystr -> pystr -> res float.
Variable flesch_reading_ease : pystr -> pystr -> res float.
Variable coleman_liau_index : pystr -> res float.
Variable dale_chall_readability_score : pystr -> pystr -> res float.
Variable linsear_write_formula : pystr -> pystr -> res float.
Variable gunning_fog : pystr -> pystr -> res float.

(** ** Character classes

    ASCII is classified here; the tables are consulted for the other code
    points, none of which is both white space and a letter or a digit. *)

Definition ascii_alpha (c : codepoint) : bool :=
  ((0x41 <=? c) && (c <=? 0x5A) || (0x61 <=? c) && (c <=? 0x7A))%N.

Definition ascii_digit (c : codepoint) : bool :=
  ((0x30 <=? c) && (c <=? 0x39))%N.

Definition isalpha (c : codepoint) : bool :=
  if (c <? 0x80)%N then ascii_alpha c
  else ucd_alpha c && negb (isspace c).

Definition isnumeric (c : codepoint) : bool :=
  if (c <? 0x80)%N then ascii_digit c
  else ucd_numeric c && negb (isspace c).

Definition isalnum (c : codepoint) : bool := isalpha c || isnumeric c.

(** [\w]: alphanumeric or the underscore. *)
Definition is_word (c : codepoint) : bool := isalnum c || (c =? 0x5F)%N.

(** ** transformations.remove_punctuation *)

Definition apostrophe : codepoint := 0x27%N.

Definition isalpha_opt (c : option codepoint) : bool :=
  match c with
  | Some c => isalpha c
  | None => false
  end.

(** Modelled from the spec: the Normalizer ([remove_punctuation]), whose
    module is not among the embedded ones. It removes every character
    that is not a letter, a digit or white space; when contraction
    apostrophes are kept, an apostrophe directly between two letters
    stays. [prev] is the character before [t] in the text. *)
Fixpoint normalize_from (keep_contractions : bool) (prev : option codepoint)
    (t : pystr) : pystr :=
  match t with
  | [] => []
  | c :: r =>
      if isalnum c || isspace c
         || (keep_contractions && (c =? apostrophe)%N
             && isalpha_opt prev && isalpha_opt (hd_error r))
      then c :: normalize_from keep_contractions (Some c) r
      else normalize_from keep_contractions (Some c) r
  end.

Definition remove_punctuation (text : pystr) (rm_apostrophe : bool) : pystr :=
  normalize_from (negb rm_apostrophe) None text.

(** ** counts.count_words, counts.count_chars *)

(** Modelled from the spec: [count_words], whose module is not among the
    embedded ones. It splits on white space after the optional
    normalization and returns the number of tokens. Its callers leave
    [rm_punctuation] at its default, true. *)
Definition count_words (text : pystr) (rm_punctuation : bool) : Z :=
  let text :=
    if rm_punctuation
    then remove_punctuation text count_words_rm_apostrophe
    else text in
  len (split text).

(** Modelled from the spec: [count_chars], whose module is not among the
    embedded ones. It
    counts the code points, optionally leaving white space out. *)
Definition count_chars (text : pystr) (ignore_spaces : bool) : Z :=
  let text :=
    if ignore_spaces then filter (fun c => negb (isspace c)) text
    else text in
  len text.

(** ** counts.count_sentences *)

Definition is_terminal (c : codepoint) : bool :=
  mem c [cp "."; cp "!"; cp "?"].

(** [r"\b[^.!?]+[.!?]*"] *)
Definition sentence_re : regex :=
  [WordBoundary; ClassPlus (fun c => negb (is_terminal c));
   ClassStar is_terminal].

Definition count_sentences (text : pystr) : Z :=
  let sentences := findall is_word sentence_re text in
  let ignore_count :=
    fold_left
      (fun ignore_count sentence =>
         if count_words sentence true <=? 2 then ignore_count + 1
         else ignore_count)
      sentences 0 in
  Z.max 1 (len sentences - ignore_count).

(** ** counts.count_arabic_syllables *)

(** [[r"\u064E", r"\u064F", r"\u0650"]]: raw strings, so each is the six
    characters of the escape sequence as it is written. *)
Definition tashkeel : list pystr :=
  [py "\u064E"; py "\u064F"; py "\u0650"].

(** alef, waw, ya *)
Definition long_vowels : list pystr := [[0x0627%N]; [0x0648%N]; [0x064a%N]].

(** The characters of the words of the normalized text, each a string of
    length one. *)
Definition char_list (text : pystr) : list pystr :=
  flat_map (fun w => map (fun c => [c]) w)
           (split (remove_punctuation text true)).

(** One round of the inner loop: [i, c] of [enumerate(char_list)]. *)
Definition scan_step (chars : list pystr) (t : pystr)
    (counts : Z * Z) (ic : Z * pystr) : Z * Z :=
  let '(short_count, long_count) := counts in
  let '(i, c) := ic in
  if negb (str_eqb c t) then counts
  else if (i + 1 <? len chars)
          && str_mem (nth (Z.to_nat (i + 1)) chars []) long_vowels
       then (short_count, long_count + 1)
       else (short_count + 1, long_count).

Definition enumerate {A} (l : list A) : list (Z * A) :=
  combine (map Z.of_nat (seq 0 (List.length l))) l.

(** The two nested loops, from [short_count = long_count = 0]. *)
Definition scan_tashkeel (marks : list pystr) (chars : list pystr) : Z * Z :=
  fold_left
    (fun counts t => fold_left (scan_step chars t) (enumerate chars) counts)
    marks (0, 0).

(** [[\u064B\u064C\u064D\u0651]]: the escapes are read by [re]. *)
Definition is_stress (c : codepoint) : bool :=
  mem c [0x064B; 0x064C; 0x064D; 0x0651]%N.

(** [[\u0627\u0649\?\.\!\,\s*]] *)
Definition is_filler (c : codepoint) : bool :=
  mem c [0x0627%N; 0x0649%N; cp "?"; cp "."; cp "!"; cp ","]
  || isspace c || (c =? cp "*")%N.

Definition stress_count (text : pystr) : Z :=
  len (findall is_word [Class is_stress] text).

(** The value the fall-back gives [short_count]. *)
Definition approximate_short_count (text : pystr) : Z :=
  len (sub_empty is_word [Class is_filler] text) - 2.

Definition count_arabic_syllables (text : pystr) : Z :=
  let '(short_count, long_count) := scan_tashkeel tashkeel (char_list text) in
  let stress_count := stress_count text in
  let short_count :=
    if short_count =? 0 then approximate_short_count text
    else short_count in
  short_count + 2 * (long_count + stress_count).

(** ** counts.count_arabic_long_words *)

(** The alternation of the eleven marks, each a single character. *)
Definition is_tashkeel_mark (c : codepoint) : bool :=
  mem c [0x064E; 0x064B; 0x064F; 0x064C; 0x0650; 0x064D; 0x0651;
         0x0652; 0x0653; 0x0657; 0x0658]%N.

Definition count_arabic_long_words (text : pystr) : Z :=
  let text := sub_empty is_word [Class is_tashkeel_mark] text in
  let text := remove_punctuation text true in
  fold_left (fun count t => if len t >? 5 then count + 1 else count)
            (split text) 0.

(** ** counts.count_monosyllable_words *)

Definition count_monosyllable_words (text lang : pystr) : Z :=
  len (filter (fun w => count_syllables w lang =? 1) (list_words text)).

(** ** metrics.automated_readability_index *)

Definition automated_readability_index (text : pystr) : res float :=
  let chrs := count_chars text true in
  let words := count_words text true in
  let sentences := count_sentences text in
  except_ZeroDivisionError
    (a <- int_truediv chrs words ;;
     b <- int_truediv words sentences ;;
     Ret (4.71 * a + 0.5 * b - 21.43)%float)
    (Ret 0%float).

(** ** metrics.smog_index *)

Definition smog_index (text lang : pystr) : res float :=
  let sentences := count_sentences text in
  if sentences <? 3 then Ret 0%float
  else
    poly_syllab <- count_polysyllable_words text lang ;;
    except_ZeroDivisionError
      (q <- int_truediv poly_syllab sentences ;;
       r <- float_pow (30 * q) 0.5 ;;
       Ret (1.043 * r + 3.1291)%float)
      (Ret 0%float).

(** ** metrics.chars_per_word *)

(** The function returns a float from its [try] branch and an [int] from
    its handler. *)
Inductive number :=
| Int (z : Z)
| Float (f : float).

Definition chars_per_word (text : pystr) (ignore_spaces : bool) : res number :=
  except_ZeroDivisionError
    (q <- int_truediv (count_chars text ignore_spaces) (count_words text true) ;;
     Ret (Float q))
    (Ret (Int (count_chars text ignore_spaces))).

(** ** metrics.text_standard *)

(** The votes of the Flesch Reading Ease score. *)
Definition fre_votes (score : float) : list Z :=
  if lt score 100 && ge score 90 then [5]
  else if lt score 90 && ge score 80 then [6]
  else if lt score 80 && ge score 70 then [7]
  else if lt score 70 && ge score 60 then [8; 9]
  else if lt score 60 && ge score 50 then [10]
  else if lt score 50 && ge score 40 then [11]
  else if lt score 40 && ge score 30 then [12]
  else [13].

(** [lower = math.floor(f(...)); upper = math.ceil(f(...))], both appended
    to [grade]; the formula is called twice. *)
Definition floor_and_ceil (score : res float) (grade : list Z) : res (list Z) :=
  x <- score ;;
  lower <- floor x ;;
  y <- score ;;
  upper <- ceil y ;;
  Ret (grade ++ [lower; upper]).

(** The list [grade] when the last vote has been appended. *)
Definition text_standard_grade (text lang : pystr) : res (list Z) :=
  grade <- floor_and_ceil (flesch_kincaid_grade text lang) [] ;;
  score <- flesch_reading_ease text lang ;;
  let grade := grade ++ fre_votes score in
  grade <- floor_and_ceil (smog_index text lang) grade ;;
  grade <- floor_and_ceil (coleman_liau_index text) grade ;;
  grade <- floor_and_ceil (automated_readability_index text) grade ;;
  grade <- floor_and_ceil (dale_chall_readability_score text lang) grade ;;
  grade <- floor_and_ceil (linsear_write_formula text lang) grade ;;
  grade <- floor_and_ceil (gunning_fog text lang) grade ;;
  Ret grade.

(** [d = Counter(grade); final_grade = d.most_common(1);
    return float(final_grade[0][0])] *)
Definition final_grade (grade : list Z) : res Z :=
  match most_common_1 (counter_of grade) with
  | (g, _) :: _ => Ret g
  | [] => Raise IndexError
  end.

Definition text_standard (text lang : pystr) : res float :=
  grade <- text_standard_grade text lang ;;
  g <- final_grade grade ;;
  float_of_int g.

(** ** The public class, textstat.textstatistics *)

Record textstatistics := {
  lang : pystr;
  round_points : option Z;
  rm_apostrophe : bool
}.

(** A new instance: the class attributes. *)
Definition new_textstatistics : textstatistics :=
  {| lang := py "en_US"; round_points := None; rm_apostrophe := true |}.

Definition legacy_round (self : textstatistics) (number : float) : float :=
  match round_points self with
  | None => number
  | Some points => py_round number points
  end.

(** [text_standard] returns a float or a string. *)
Inductive value :=
| Number (f : float)
| Str (s : pystr).

Definition textstatistics_text_standard (self : textstatistics)
    (text : pystr) (float_output : bool) : res value :=
  standard_value <- text_standard text (lang self) ;;
  if float_output then Ret (Number (legacy_round self standard_value))
  else
    i <- int_of_float standard_value ;;
    let lower_score := i - 1 in
    let upper_score := lower_score + 1 in
    Ret (Str (str_of_int lower_score ++ get_grade_suffix lower_score
              ++ py " and "
              ++ str_of_int upper_score ++ get_grade_suffix upper_score
              ++ py " grade")).

(* ================================================================== *)
(** * Definitions the properties are stated with *)
(* ================================================================== *)

(** ** The sentence scan as an automaton

    [findall] on [sentence_re] visits each character once: it seeks a
    word boundary before a character that ends no sentence, reads the
    body of the segment up to the first terminal mark, and reads the
    marks. [acc] is the segment being read, last character first. *)

Inductive scan_state :=
| Seeking (prev_is_word : bool)
| Body (acc : pystr)
| Tail (acc : pystr).

Fixpoint scan (st : scan_state) (t : pystr) : list pystr :=
  match t with
  | [] =>
      match st with
      | Seeking _ => []
      | Body acc | Tail acc => [rev acc]
      end
  | c :: r =>
      match st with
      | Seeking pw =>
          if xorb pw (is_word c) && negb (is_terminal c)
          then scan (Body [c]) r
          else scan (Seeking (is_word c)) r
      | Body acc =>
          if is_terminal c then scan (Tail (c :: acc)) r
          else scan (Body (c :: acc)) r
      | Tail acc =>
          if is_terminal c then scan (Tail (c :: acc)) r
          else rev acc :: (if is_word c then scan (Body [c]) r
                           else scan (Seeking false) r)
      end
  end.

Fixpoint take_while (p : codepoint -> bool) (t : pystr) : pystr :=
  match t with
  | c :: r => if p c then c :: take_while p r else []
  | [] => []
  end.

Fixpoint drop_while (p : codepoint -> bool) (t : pystr) : pystr :=
  match t with
  | c :: r => if p c then drop_while p r else t
  | [] => []
  end.

(** The character before the position reached after reading [u]. *)
Fixpoint last_or (prev : option codepoint) (u : pystr) : option codepoint :=
  match u with
  | [] => prev
  | c :: u' => last_or (Some c) u'
  end.

Definition non_terminal (c : codepoint) : bool := negb (is_terminal c).

(** The segments of a greedy scan of [t]: each is a run of characters
    that end no sentence, not empty, followed by zero or more terminal
    marks; the run stops only at a mark or at the end of the text, and the
    marks stop only at a character that is not one. The segments do not
    overlap and come in the order of the text. *)
Inductive segments_of : pystr -> list pystr -> Prop :=
| seg_done t : segments_of t []
| seg_next gap a b rest l :
    a <> [] ->
    forallb non_terminal a = true ->
    forallb is_terminal b = true ->
    (b = [] -> rest = []) ->
    (forall c r, rest = c :: r -> non_terminal c = true) ->
    segments_of rest l ->
    segments_of (gap ++ a ++ b ++ rest) ((a ++ b) :: l).

(** What [sentence_re] matches at a position. *)
Definition sentence_at (prev : option codepoint) (t : pystr) : option pystr :=
  match t with
  | c :: r =>
      if at_boundary is_word prev t && non_terminal c
      then Some (c :: take_while non_terminal r
                   ++ take_while is_terminal (drop_while non_terminal r))
      else None
  | [] => None
  end.

(** The segments [count_sentences] leaves out. *)
Definition short_segment (s : pystr) : bool := count_words s true <=? 2.

(** [s'] is [s] with terminal marks after it. *)
Definition extended_by_marks (s' s : pystr) : Prop :=
  exists q, s' = s ++ q /\ forallb is_terminal q = true.

(** ** The Arabic syllable count *)

(** fatha, damma, kasra *)
Definition is_short_vowel (c : codepoint) : bool :=
  mem c [0x064E; 0x064F; 0x0650]%N.

(** Whether [count_arabic_syllables] takes its fall-back: the test
    [short_count == 0] after the scan. *)
Definition fallback_applied (text : pystr) : bool :=
  fst (scan_tashkeel tashkeel (char_list text)) =? 0.

(** kaf, fatha, teh, fatha, beh, fatha: a word of three short
    syllables. *)
Definition kataba : pystr :=
  [0x0643; 0x064E; 0x062A; 0x064E; 0x0628; 0x064E]%N.

(** ** The consensus *)

(** The number of votes for [v] in [g]. *)
Definition votes_for (g : list Z) (v : Z) : Z :=
  Z.of_nat (count_occ Z.eq_dec g v).

(** [v] has the most votes of [g], and every value appended before the
    first vote for [v] has strictly fewer. *)
Definition first_most_common (g : list Z) (v : Z) : Prop :=
  (forall w, votes_for g w <= votes_for g v)
  /\ exists l1 l2, g = l1 ++ v :: l2 /\ ~ In v l1
                   /\ forall w, In w l1 -> votes_for g w < votes_for g v.

(** The keys of [Counter(g)], in the order of their first insertion. *)
Definition first_keys (g : list Z) : list Z :=
  fold_left (fun ks k => if existsb (Z.eqb k) ks then ks else ks ++ [k]) g [].

(** The buckets of the score: lower bound, upper bound, votes. *)
Definition fre_table : list (float * float * list Z) :=
  [ (90%float, 100%float, [5]); (80%float, 90%float, [6]);
    (70%float, 80%float, [7]); (60%float, 70%float, [8; 9]);
    (50%float, 60%float, [10]); (40%float, 50%float, [11]);
    (30%float, 40%float, [12]) ].

(** [s] lies in the bucket [b]. *)
Definition in_bucket (s : float) (b : float * float * list Z) : bool :=
  let '(lo, hi, _) := b in ge s lo && lt s hi.

(** Modelled from the spec: the division-by-zero policy of the formulas
    whose modules are not among the embedded ones. A formula returns
    [0.0] when a denominator, the number of words, is zero. *)
Definition zero_division_policy (lang : pystr) : Prop :=
  forall text, count_words text true = 0 ->
    flesch_kincaid_grade text lang = Ret 0%float
    /\ flesch_reading_ease text lang = Ret 0%float
    /\ coleman_liau_index text = Ret 0%float
    /\ dale_chall_readability_score text lang = Ret 0%float
    /\ linsear_write_formula text lang = Ret 0%float
    /\ gunning_fog text lang = Ret 0%float.

(** ** Finite scores *)

(** A float that is neither a NaN nor an infinity. *)
Definition is_finite (x : float) : bool :=
  match Prim2SF x with
  | S754_zero _ | S754_finite _ _ _ => true
  | S754_infinity _ | S754_nan => false
  end.

(** A finite float is zero or [(+/-) m * 2^e]. [n] is the largest
    integer that is not above the value of [x]. *)
Definition is_floor_of (x : float) (n : Z) : Prop :=
  match Prim2SF x with
  | S754_zero _ => n = 0
  | S754_finite s m e =>
      if 0 <=? e then n = int_of_mantissa s m * 2 ^ e
      else n * 2 ^ (- e) <= int_of_mantissa s m < (n + 1) * 2 ^ (- e)
  | S754_infinity _ | S754_nan => False
  end.

(** [n] is the smallest integer that is not below the value of [x]. *)
Definition is_ceil_of (x : float) (n : Z) : Prop :=
  match Prim2SF x with
  | S754_zero _ => n = 0
  | S754_finite s m e =>
      if 0 <=? e then n = int_of_mantissa s m * 2 ^ e
      else (n - 1) * 2 ^ (- e) < int_of_mantissa s m <= n * 2 ^ (- e)
  | S754_infinity _ | S754_nan => False
  end.

(** The formula returns a finite float. *)
Definition returns_finite (r : res float) : Prop :=
  exists x, r = Ret x /\ is_finite x = true.

(** What [math.floor] and [math.ceil] raise for a float that is not
    finite. *)
Definition conversion_error (x : float) : exn :=
  match Prim2SF x with
  | S754_nan => ValueError
  | _ => OverflowError
  end.

(** ** The scan for marks, without indices *)

(** The short and long syllables one mark [t] gives in [chars]: an
    occurrence of [t] is long when the next element is a long vowel, and
    short otherwise, also when it is the last element. *)
Fixpoint mark_counts (t : pystr) (chars : list pystr) : Z * Z :=
  match chars with
  | [] => (0, 0)
  | c :: r =>
      let '(short_count, long_count) := mark_counts t r in
      if str_eqb c t then
        match r with
        | d :: _ =>
            if str_mem d long_vowels then (short_count, long_count + 1)
            else (short_count + 1, long_count)
        | [] => (short_count + 1, long_count)
        end
      else (short_count, long_count)
  end.

(** The sum of the counts of all marks. *)
Definition all_mark_counts (marks chars : list pystr) : Z * Z :=
  fold_right
    (fun t counts =>
       (fst (mark_counts t chars) + fst counts,
        snd (mark_counts t chars) + snd counts))
    (0, 0) marks.

(** The sum of the lengths of the strings of a list. *)
Definition total_length (l : list pystr) : Z :=
  fold_right (fun w n => len w + n) 0 l.

(** The number of elements of [chars] equal to one of [marks], each mark
    counted for itself. *)
Definition occurrences (marks chars : list pystr) : Z :=
  fold_right
    (fun t n => Z.of_nat (count_occ (list_eq_dec N.eq_dec) chars t) + n)
    0 marks.

(** ** Integers that are floats *)

(** An integer that binary64 holds exactly: at most 53 significant bits,
    times a power of two within the range of the exponents. *)
Definition representable (z : Z) : Prop :=
  exists m e, z = m * 2 ^ e /\ Z.abs m < 2 ^ 53 /\ 0 <= e <= 971.

(** Of the eight formulas [text_standard] calls, the Flesch Reading Ease
    returns a float and each of the seven others a finite one. *)
Definition formulas_finite (text lang : pystr) : Prop :=
  returns_finite (flesch_kincaid_grade text lang)
  /\ (exists score, flesch_reading_ease text lang = Ret score)
  /\ returns_finite (smog_index text lang)
  /\ returns_finite (coleman_liau_index text)
  /\ returns_finite (automated_readability_index text)
  /\ returns_finite (dale_chall_readability_score text lang)
  /\ returns_finite (linsear_write_formula text lang)
  /\ returns_finite (gunning_fog text lang).

(** The string form of [text_standard] for the grades [g - 1] and [g]. *)
Definition grade_band (g : Z) : pystr :=
  str_of_int (g - 1) ++ get_grade_suffix (g - 1) ++ py " and "
  ++ str_of_int g ++ get_grade_suffix g ++ py " grade".

(* ================================================================== *)
(** * Properties *)
(* ================================================================== *)

(** ** Strings and words *)

Lemma len_nonneg {A} (l : list A) : 0 <= len l.
Proof. unfold len. lia. Qed.

Lemma len_nil_iff {A} (l : list A) : len l = 0 <-> l = [].
Proof.
  unfold len. destruct l; simpl; split; intros H; try reflexivity;
    try discriminate; lia.
Qed.

Lemma len_app {A} (l1 l2 : list A) : len (l1 ++ l2) = len l1 + len l2.
Proof. unfold len. rewrite length_app. lia. Qed.

Lemma split_from_pending w t : w <> [] -> split_from w t <> [].
Proof.
  revert w. induction t as [|c r IH]; intros w Hw; simpl.
  - destruct w; [contradiction | discriminate].
  - destruct (isspace c).
    + destruct w; [contradiction | discriminate].
    + apply IH. discriminate.
Qed.

Lemma split_nil_iff t :
  split t = [] <-> forallb isspace t = true.
Proof.
  unfold split. induction t as [|c r IH]; simpl.
  - tauto.
  - destruct (isspace c) eqn:Hc; simpl.
    + exact IH.
    + split; [intros H | discriminate].
      exfalso. revert H. apply split_from_pending. discriminate.
Qed.

(** Settles the comparisons of a code point against constants that the
    context decides. *)
Ltac decide_cmp :=
  repeat match goal with
    | |- context [(?a <=? ?b)%N] =>
        first [ replace (a <=? b)%N with false
                  by (symmetry; apply N.leb_gt; lia)
              | replace (a <=? b)%N with true
                  by (symmetry; apply N.leb_le; lia) ]
    | |- context [(?a =? ?b)%N] =>
        first [ replace (a =? b)%N with false
                  by (symmetry; apply N.eqb_neq; lia)
              | replace (a =? b)%N with true
                  by (symmetry; apply N.eqb_eq; lia) ]
    end.

Lemma ascii_alpha_not_space c : ascii_alpha c = true -> isspace c = false.
Proof.
  unfold ascii_alpha, isspace. intros H.
  rewrite orb_true_iff, !andb_true_iff, !N.leb_le in H.
  decide_cmp. reflexivity.
Qed.

Lemma ascii_digit_not_space c : ascii_digit c = true -> isspace c = false.
Proof.
  unfold ascii_digit, isspace. intros H.
  rewrite andb_true_iff, !N.leb_le in H.
  decide_cmp. reflexivity.
Qed.

Lemma isalnum_not_space c : isalnum c = true -> isspace c = false.
Proof.
  unfold isalnum, isalpha, isnumeric. intros H.
  destruct (c <? 0x80)%N.
  - apply orb_true_iff in H as [H | H];
      [apply ascii_alpha_not_space | apply ascii_digit_not_space]; exact H.
  - destruct (isspace c); [|reflexivity].
    rewrite !andb_false_r in H. discriminate.
Qed.

Lemma isalpha_isalnum c : isalpha c = true -> isalnum c = true.
Proof. unfold isalnum. intros ->. reflexivity. Qed.

(** A text without letters and digits normalizes to its white space. *)
Lemma normalize_no_alnum keep prev t :
  forallb (fun c => negb (isalnum c)) t = true ->
  normalize_from keep prev t = filter isspace t.
Proof.
  revert prev. induction t as [|c r IH]; intros prev H; simpl in *.
  - reflexivity.
  - apply andb_true_iff in H as [Hc Hr].
    apply negb_true_iff in Hc. rewrite Hc. simpl.
    assert (Hnext : isalpha_opt (hd_error r) = false).
    { destruct r as [|d r']; simpl in *; [reflexivity|].
      apply andb_true_iff in Hr as [Hd _]. apply negb_true_iff in Hd.
      destruct (isalpha d) eqn:Ha; [|reflexivity].
      apply isalpha_isalnum in Ha. congruence. }
    rewrite Hnext, !andb_false_r, orb_false_r.
    destruct (isspace c); rewrite IH by exact Hr; reflexivity.
Qed.

Lemma normalize_keeps_alnum keep prev t c :
  In c t -> isalnum c = true -> In c (normalize_from keep prev t).
Proof.
  revert prev. induction t as [|d r IH]; intros prev Hin Hc; simpl in *.
  - contradiction.
  - destruct Hin as [-> | Hin].
    + rewrite Hc. simpl. left. reflexivity.
    + match goal with |- context [if ?b then _ else _] => destruct b end;
        [right|]; apply IH; assumption.
Qed.

(** [count_words] is zero exactly on the texts without letters and digits. *)
Lemma count_words_zero_iff t :
  count_words t true = 0 <-> forallb (fun c => negb (isalnum c)) t = true.
Proof.
  unfold count_words, remove_punctuation. rewrite len_nil_iff, split_nil_iff.
  split.
  - intros H. apply forallb_forall. intros c Hc.
    destruct (isalnum c) eqn:Ha; [|reflexivity].
    rewrite forallb_forall in H.
    pose proof (H c (normalize_keeps_alnum _ None t c Hc Ha)) as Hs.
    rewrite (isalnum_not_space c Ha) in Hs. discriminate.
  - intros H. rewrite normalize_no_alnum by exact H.
    apply forallb_forall. intros c Hc. apply filter_In in Hc.
    exact (proj2 Hc).
Qed.

Lemma count_words_nonneg t b : 0 <= count_words t b.
Proof. apply len_nonneg. Qed.

(** Sentence-ending punctuation at the end of a text does not survive
    the normalization. *)
Lemma is_terminal_cases c :
  is_terminal c = true -> c = cp "." \/ c = cp "!" \/ c = cp "?".
Proof.
  clear.
  unfold is_terminal, mem. simpl. rewrite !orb_true_iff, !N.eqb_eq.
  intuition discriminate.
Qed.

Lemma terminal_not_kept c :
  is_terminal c = true ->
  isalnum c = false /\ isspace c = false /\ (c =? apostrophe)%N = false
  /\ isalpha c = false /\ is_word c = false.
Proof.
  intros H. destruct (is_terminal_cases c H) as [-> | [-> | ->]];
    repeat split; reflexivity.
Qed.

Lemma normalize_terminals keep prev p :
  forallb is_terminal p = true -> normalize_from keep prev p = [].
Proof.
  revert prev. induction p as [|c r IH]; intros prev H; simpl in *.
  - reflexivity.
  - apply andb_true_iff in H as [Hc Hr].
    destruct (terminal_not_kept c Hc) as (-> & -> & -> & _).
    rewrite andb_false_r. simpl. apply IH. exact Hr.
Qed.

Lemma normalize_app_terminals keep prev s p :
  forallb is_terminal p = true ->
  normalize_from keep prev (s ++ p) = normalize_from keep prev s.
Proof.
  clear.
  intros Hp. revert prev. induction s as [|c r IH]; intros prev; simpl.
  - apply normalize_terminals. exact Hp.
  - assert (Hnext : isalpha_opt (hd_error (r ++ p)) = isalpha_opt (hd_error r)).
    { destruct r as [|d r']; [|reflexivity]. simpl.
      destruct p as [|e p']; [reflexivity|]. simpl in *.
      apply andb_true_iff in Hp as [He _].
      apply terminal_not_kept in He. tauto. }
    rewrite Hnext, !IH. reflexivity.
Qed.

Lemma count_words_app_terminals s p :
  forallb is_terminal p = true ->
  count_words (s ++ p) true = count_words s true.
Proof.
  intros Hp. unfold count_words, remove_punctuation.
  rewrite normalize_app_terminals by exact Hp. reflexivity.
Qed.

(** ** The regular-expression scan *)

Lemma take_drop_while p t : take_while p t ++ drop_while p t = t.
Proof.
  induction t as [|c r IH]; simpl; [reflexivity|].
  destruct (p c); simpl; [rewrite IH|]; reflexivity.
Qed.

Lemma take_while_all p t : forallb p (take_while p t) = true.
Proof.
  induction t as [|c r IH]; simpl; [reflexivity|].
  destruct (p c) eqn:Hc; simpl; [rewrite Hc, IH|]; reflexivity.
Qed.

Lemma drop_while_head p t c r :
  drop_while p t = c :: r -> p c = false.
Proof.
  induction t as [|d t' IH]; simpl; [discriminate|].
  destruct (p d) eqn:Hd; [exact IH|].
  intros H. injection H as -> _. exact Hd.
Qed.

(** A greedy repetition before a rest of the pattern that always matches
    never gives a character back. *)
Lemma greedy_total p k f :
  (forall prev t, k prev t = Some (f t)) ->
  forall prev t,
    greedy p k prev t = Some (take_while p t ++ f (drop_while p t)).
Proof.
  clear. intros Hk prev t. revert prev.
  induction t as [|c r IH]; intros prev; simpl.
  - apply Hk.
  - destruct (p c).
    + rewrite IH. reflexivity.
    + apply Hk.
Qed.

Lemma match_here_sentence prev t :
  match_here is_word sentence_re prev t = sentence_at prev t.
Proof.
  unfold sentence_re, sentence_at. simpl match_here.
  destruct t as [|c r].
  - destruct (at_boundary is_word prev []); reflexivity.
  - destruct (at_boundary is_word prev (c :: r)); simpl; [|reflexivity].
    fold (non_terminal c). destruct (non_terminal c); [|reflexivity].
    rewrite (greedy_total _ _
               (fun t => take_while is_terminal t ++ [])).
    + simpl. rewrite app_nil_r. reflexivity.
    + intros prev' t'.
      apply (greedy_total is_terminal _ (fun _ => [])).
      reflexivity.
Qed.

Lemma findall_skip re prev u v :
  findall_from is_word re prev (u ++ v) (List.length u)
  = findall_from is_word re (last_or prev u) v 0.
Proof.
  revert prev. induction u as [|c u' IH]; intros prev; simpl.
  - destruct v; reflexivity.
  - apply IH.
Qed.

Lemma findall_from_cons re prev c r :
  findall_from is_word re prev (c :: r) 0
  = match match_here is_word re prev (c :: r) with
    | Some m => m :: findall_from is_word re (Some c) r (pred (List.length m))
    | None => findall_from is_word re (Some c) r 0
    end.
Proof. reflexivity. Qed.

Lemma sentence_at_prev prev prev' t :
  is_word_opt is_word prev = is_word_opt is_word prev' ->
  sentence_at prev t = sentence_at prev' t.
Proof.
  intros H. destruct t as [|c r]; simpl; [reflexivity|].
  unfold at_boundary. rewrite H. reflexivity.
Qed.

Lemma findall_prev prev prev' t :
  is_word_opt is_word prev = is_word_opt is_word prev' ->
  findall_from is_word sentence_re prev t 0
  = findall_from is_word sentence_re prev' t 0.
Proof.
  intros H. destruct t as [|c r]; [reflexivity|].
  rewrite !findall_from_cons, !match_here_sentence.
  rewrite (sentence_at_prev prev prev') by exact H. reflexivity.
Qed.

Lemma last_or_app prev u v : last_or prev (u ++ v) = last_or (last_or prev u) v.
Proof. revert prev. induction u; intros; simpl; auto. Qed.

Lemma last_or_all_terminal prev u :
  u <> [] -> forallb is_terminal u = true ->
  is_word_opt is_word (last_or prev u) = false.
Proof.
  revert prev. induction u as [|c u' IH]; intros prev Hne Hall.
  - contradiction.
  - simpl in *. apply andb_true_iff in Hall as [Hc Hu].
    destruct u' as [|d u''].
    + simpl. apply terminal_not_kept in Hc. tauto.
    + apply IH; [discriminate | exact Hu].
Qed.

(** After a match the scan goes on behind it; the character before that
    position is a terminal mark whenever text is left. *)
Lemma findall_after_match prev r :
  let body := take_while non_terminal r in
  let tail := take_while is_terminal (drop_while non_terminal r) in
  let rest := drop_while is_terminal (drop_while non_terminal r) in
  findall_from is_word sentence_re prev r (List.length (body ++ tail))
  = findall_from is_word sentence_re None rest 0.
Proof.
  intros body tail rest.
  assert (Hr : r = (body ++ tail) ++ rest).
  { subst body tail rest. rewrite <- app_assoc, !take_drop_while.
    reflexivity. }
  rewrite Hr at 1. rewrite findall_skip.
  destruct rest as [|d rest'] eqn:Hrest; [reflexivity|].
  apply findall_prev. rewrite last_or_app.
  apply last_or_all_terminal; [|apply take_while_all].
  subst tail rest. intros Htail.
  destruct (drop_while non_terminal r) as [|e r'] eqn:Hd; [discriminate|].
  pose proof (drop_while_head _ _ _ _ Hd) as He.
  unfold non_terminal in He. apply negb_false_iff in He.
  simpl in Htail. rewrite He in Htail. discriminate.
Qed.

(** The automaton computes the scan of [findall]. *)
Lemma scan_findall t :
  (forall prev,
     findall_from is_word sentence_re prev t 0
     = scan (Seeking (is_word_opt is_word prev)) t)
  /\ (forall acc,
        scan (Body acc) t
        = (rev acc ++ take_while non_terminal t
             ++ take_while is_terminal (drop_while non_terminal t))
          :: findall_from is_word sentence_re None
               (drop_while is_terminal (drop_while non_terminal t)) 0)
  /\ (forall acc,
        scan (Tail acc) t
        = (rev acc ++ take_while is_terminal t)
          :: findall_from is_word sentence_re None
               (drop_while is_terminal t) 0).
Proof.
  induction t as [|c r (IH1 & IH2 & IH3)].
  - repeat split; intros; simpl; rewrite ?app_nil_r; reflexivity.
  - assert (H1 : forall prev,
               findall_from is_word sentence_re prev (c :: r) 0
               = scan (Seeking (is_word_opt is_word prev)) (c :: r)).
    { intros prev. rewrite findall_from_cons, match_here_sentence.
      simpl. unfold at_boundary. simpl. fold (non_terminal c).
      destruct (xorb (is_word_opt is_word prev) (is_word c)
                && non_terminal c).
      - simpl List.length. simpl pred. rewrite findall_after_match.
        rewrite IH2. reflexivity.
      - apply IH1. }
    split; [exact H1|]. split; intros acc.
    + simpl. destruct (is_terminal c) eqn:Hc.
      * assert (Hn : non_terminal c = false)
          by (unfold non_terminal; rewrite Hc; reflexivity).
        rewrite Hn. simpl. rewrite Hc, IH3. simpl.
        rewrite <- app_assoc. reflexivity.
      * assert (Hn : non_terminal c = true)
          by (unfold non_terminal; rewrite Hc; reflexivity).
        rewrite Hn, IH2. simpl. rewrite <- app_assoc. reflexivity.
    + simpl. destruct (is_terminal c) eqn:Hc.
      * rewrite IH3. simpl. rewrite <- app_assoc. reflexivity.
      * rewrite app_nil_r. f_equal. rewrite H1. simpl.
        rewrite Hc. simpl. destruct (is_word c); reflexivity.
Qed.

Lemma findall_scan t :
  findall is_word sentence_re t = scan (Seeking false) t.
Proof. apply (proj1 (scan_findall t) None). Qed.

(** ** The segments of [count_sentences] *)

Lemma segments_of_cons c t l : segments_of t l -> segments_of (c :: t) l.
Proof.
  intros H. destruct H as [t | gap a b rest l Ha Hna Hb Hbr Hr Hl].
  - constructor.
  - apply (seg_next (c :: gap) a b rest l); assumption.
Qed.

Lemma drop_while_shorter p t :
  (List.length (drop_while p t) <= List.length t)%nat.
Proof.
  induction t as [|c r IH]; simpl; [lia|].
  destruct (p c); simpl; lia.
Qed.

Lemma findall_segments_fuel n :
  forall prev t, (List.length t <= n)%nat ->
    segments_of t (findall_from is_word sentence_re prev t 0).
Proof.
  induction n as [|n IH]; intros prev t Hn.
  - destruct t; [constructor | simpl in Hn; lia].
  - destruct t as [|c r]; [constructor|].
    rewrite findall_from_cons, match_here_sentence. simpl sentence_at.
    destruct (at_boundary is_word prev (c :: r) && non_terminal c) eqn:Hm.
    + apply andb_true_iff in Hm as [_ Hc].
      simpl List.length. simpl pred. rewrite findall_after_match.
      set (body := take_while non_terminal r).
      set (tail := take_while is_terminal (drop_while non_terminal r)).
      set (rest := drop_while is_terminal (drop_while non_terminal r)).
      assert (Ht : c :: r = [] ++ (c :: body) ++ tail ++ rest).
      { subst body tail rest. simpl. rewrite !take_drop_while. reflexivity. }
      rewrite Ht.
      change (c :: body ++ tail) with ((c :: body) ++ tail).
      apply seg_next.
      * discriminate.
      * simpl. rewrite Hc. apply take_while_all.
      * apply take_while_all.
      * subst tail rest. intros Htail.
        destruct (drop_while non_terminal r) as [|e r'] eqn:Hd;
          [reflexivity|].
        pose proof (drop_while_head _ _ _ _ Hd) as He.
        unfold non_terminal in He. apply negb_false_iff in He.
        simpl in Htail. rewrite He in Htail. discriminate.
      * subst rest. intros d r' Hd. apply drop_while_head in Hd.
        unfold non_terminal. rewrite Hd. reflexivity.
      * apply IH. subst rest. simpl in Hn.
        pose proof (drop_while_shorter is_terminal
                      (drop_while non_terminal r)).
        pose proof (drop_while_shorter non_terminal r). lia.
    + apply segments_of_cons. apply IH. simpl in Hn. lia.
Qed.

Lemma findall_segments t :
  segments_of t (findall is_word sentence_re t).
Proof. apply (findall_segments_fuel (List.length t)). lia. Qed.

Lemma segments_of_incl t l :
  segments_of t l -> forall s, In s l -> incl s t.
Proof.
  induction 1 as [t | gap a b rest l Ha Hna Hb Hbr Hr Hl IH];
    intros s Hs.
  - contradiction.
  - destruct Hs as [<- | Hs].
    + intros x Hx. apply in_or_app. right.
      apply in_app_or in Hx as [Hx | Hx].
      * apply in_or_app. left. exact Hx.
      * apply in_or_app. right. apply in_or_app. left. exact Hx.
    + intros x Hx. apply in_or_app. right. apply in_or_app. right.
      apply in_or_app. right. apply (IH s Hs x Hx).
Qed.

(** The loop of [count_sentences] counts the short segments. *)
Lemma ignore_count_filter l n :
  fold_left
    (fun ignore_count sentence =>
       if count_words sentence true <=? 2 then ignore_count + 1
       else ignore_count) l n
  = n + len (filter short_segment l).
Proof.
  revert n. induction l as [|s l IH]; intros n; simpl.
  - unfold len. simpl. lia.
  - rewrite IH. unfold short_segment at 2.
    destruct (count_words s true <=? 2); [|reflexivity].
    unfold len. simpl List.length. lia.
Qed.

Lemma count_sentences_eq text :
  count_sentences text
  = Z.max 1 (len (findall is_word sentence_re text)
             - len (filter short_segment (findall is_word sentence_re text))).
Proof.
  unfold count_sentences. rewrite ignore_count_filter. reflexivity.
Qed.

Lemma count_sentences_ge_1 text : 1 <= count_sentences text.
Proof. unfold count_sentences. lia. Qed.

Lemma filter_all {A} (p : A -> bool) l :
  forallb p l = true -> filter p l = l.
Proof.
  induction l as [|x l IH]; simpl; [reflexivity|].
  intros H. apply andb_true_iff in H as [-> H]. rewrite IH by exact H.
  reflexivity.
Qed.

Lemma count_sentences_all_short text :
  forallb short_segment (findall is_word sentence_re text) = true ->
  count_sentences text = 1.
Proof.
  intros H. rewrite count_sentences_eq, filter_all by exact H. lia.
Qed.

(** A text without words has no segment that counts. *)
Lemma count_sentences_no_words text :
  count_words text true = 0 -> count_sentences text = 1.
Proof.
  intros H. apply count_sentences_all_short.
  apply forallb_forall. intros s Hs. unfold short_segment.
  assert (Hz : count_words s true = 0).
  { apply count_words_zero_iff. apply count_words_zero_iff in H.
    rewrite forallb_forall in H |- *. intros c Hc. apply H.
    exact (segments_of_incl _ _ (findall_segments text) s Hs c Hc). }
  rewrite Hz. reflexivity.
Qed.

(** ** Terminal marks appended to a text *)

Lemma scan_terminals st p :
  forallb is_terminal p = true ->
  scan st p = match st with
              | Seeking _ => []
              | Body acc | Tail acc => [rev acc ++ p]
              end.
Proof.
  revert st. induction p as [|c r IH]; intros st Hp.
  - destruct st; simpl; rewrite ?app_nil_r; reflexivity.
  - simpl in Hp. apply andb_true_iff in Hp as [Hc Hr].
    destruct st as [pw | acc | acc]; simpl; rewrite Hc; simpl.
    + rewrite andb_false_r. apply (IH (Seeking (is_word c)) Hr).
    + rewrite (IH (Tail (c :: acc)) Hr). simpl.
      rewrite <- app_assoc. reflexivity.
    + rewrite (IH (Tail (c :: acc)) Hr). simpl.
      rewrite <- app_assoc. reflexivity.
Qed.

Lemma extended_refl s : extended_by_marks s s.
Proof. exists []. rewrite app_nil_r. split; reflexivity. Qed.

Lemma scan_app_terminals p :
  forallb is_terminal p = true ->
  forall t st, Forall2 extended_by_marks (scan st (t ++ p)) (scan st t).
Proof.
  intros Hp. induction t as [|c r IH]; intros st.
  - simpl app. rewrite (scan_terminals st p Hp).
    destruct st as [pw | acc | acc]; simpl; constructor;
      try constructor; exists p; split; auto.
  - destruct st as [pw | acc | acc]; simpl.
    + destruct (xorb pw (is_word c) && negb (is_terminal c)); apply IH.
    + destruct (is_terminal c); apply IH.
    + destruct (is_terminal c); [apply IH|].
      constructor; [apply extended_refl|].
      destruct (is_word c); apply IH.
Qed.

Lemma short_segment_extended s' s :
  extended_by_marks s' s -> short_segment s' = short_segment s.
Proof.
  intros (q & -> & Hq). unfold short_segment.
  rewrite count_words_app_terminals by exact Hq. reflexivity.
Qed.

Lemma extended_lists_count l' l :
  Forall2 extended_by_marks l' l ->
  len l' = len l
  /\ len (filter short_segment l') = len (filter short_segment l).
Proof.
  induction 1 as [|s' s l' l Hs Hl [IH1 IH2]]; [split; reflexivity|].
  simpl. rewrite (short_segment_extended s' s Hs).
  unfold len in *. destruct (short_segment s); simpl List.length; lia.
Qed.

Lemma count_sentences_app_terminals text p :
  forallb is_terminal p = true ->
  count_sentences (text ++ p) = count_sentences text.
Proof.
  intros Hp. rewrite !count_sentences_eq, !findall_scan.
  destruct (extended_lists_count _ _
              (scan_app_terminals p Hp text (Seeking false))) as [-> ->].
  reflexivity.
Qed.

(** ** The Arabic syllable count *)

Lemma findall_class p prev t :
  findall_from is_word [Class p] prev t 0
  = map (fun c => [c]) (filter p t).
Proof.
  revert prev. induction t as [|c r IH]; intros prev; [reflexivity|].
  rewrite findall_from_cons. simpl.
  destruct (p c); simpl; rewrite IH; reflexivity.
Qed.

Lemma sub_empty_class p prev t :
  sub_empty_from is_word [Class p] prev t 0
  = filter (fun c => negb (p c)) t.
Proof.
  revert prev. induction t as [|c r IH]; intros prev; [reflexivity|].
  simpl. destruct (p c); simpl; rewrite IH; reflexivity.
Qed.

Lemma stress_count_eq text : stress_count text = len (filter is_stress text).
Proof.
  unfold stress_count, findall, len. rewrite findall_class, length_map.
  reflexivity.
Qed.

Lemma approximate_short_count_eq text :
  approximate_short_count text
  = len (filter (fun c => negb (is_filler c)) text) - 2.
Proof.
  unfold approximate_short_count, sub_empty. rewrite sub_empty_class.
  reflexivity.
Qed.

Lemma str_eqb_eq a b : str_eqb a b = true <-> a = b.
Proof.
  unfold str_eqb. destruct (list_eq_dec N.eq_dec a b); split;
    intros; try reflexivity; try assumption; try discriminate; contradiction.
Qed.

Lemma str_eqb_length a b :
  List.length a <> List.length b -> str_eqb a b = false.
Proof.
  intros H. destruct (str_eqb a b) eqn:E; [|reflexivity].
  apply str_eqb_eq in E. subst. contradiction.
Qed.

(** A mark that no character equals leaves the counts as they are. *)
Lemma inner_loop_no_match chars t l counts :
  (forall ic, In ic l -> str_eqb (snd ic) t = false) ->
  fold_left (scan_step chars t) l counts = counts.
Proof.
  revert counts. induction l as [|[i c] l IH]; intros counts H; simpl.
  - reflexivity.
  - assert (Hc : str_eqb c t = false) by (apply (H (i, c)); left; reflexivity).
    unfold scan_step at 2. destruct counts as [s lg]. rewrite Hc. simpl.
    apply IH. intros ic Hic. apply H. right. exact Hic.
Qed.

Lemma enumerate_snd {A} (l : list A) ic :
  In ic (enumerate l) -> In (snd ic) l.
Proof.
  unfold enumerate. destruct ic as [i c]. intros H.
  apply in_combine_r in H. exact H.
Qed.

Lemma scan_tashkeel_none marks chars :
  (forall t c, In t marks -> In c chars -> str_eqb c t = false) ->
  scan_tashkeel marks chars = (0, 0).
Proof.
  unfold scan_tashkeel. generalize (0, 0).
  induction marks as [|t marks IH]; intros counts H; simpl.
  - reflexivity.
  - rewrite inner_loop_no_match.
    + apply IH. intros t' c Ht' Hc. apply H; [right|]; assumption.
    + intros ic Hic. apply H; [left; reflexivity|].
      apply enumerate_snd. exact Hic.
Qed.

Lemma char_list_single text c :
  In c (char_list text) -> List.length c = 1%nat.
Proof.
  unfold char_list. intros H. apply in_flat_map in H as (w & _ & Hc).
  apply in_map_iff in Hc as (x & <- & _). reflexivity.
Qed.

(** The marks of [tashkeel] are six characters long and the elements of
    [char_list] one: the scan finds nothing, whatever the text. *)
Lemma scan_tashkeel_char_list text :
  scan_tashkeel tashkeel (char_list text) = (0, 0).
Proof.
  apply scan_tashkeel_none. intros t c Ht Hc.
  apply str_eqb_length. rewrite (char_list_single text c Hc).
  destruct Ht as [<- | [<- | [<- | []]]]; discriminate.
Qed.

(** What the function computes. *)
Lemma count_arabic_syllables_eq text :
  count_arabic_syllables text
  = len (filter (fun c => negb (is_filler c)) text) - 2
    + 2 * len (filter is_stress text).
Proof.
  unfold count_arabic_syllables. rewrite scan_tashkeel_char_list.
  simpl. rewrite approximate_short_count_eq, stress_count_eq. lia.
Qed.

(** ** The other counters *)

Lemma count_loop_nonneg {A} (p : A -> bool) l n :
  0 <= n -> 0 <= fold_left (fun count t => if p t then count + 1 else count) l n.
Proof.
  revert n. induction l as [|x l IH]; intros n Hn; simpl; [exact Hn|].
  apply IH. destruct (p x); lia.
Qed.

Lemma count_arabic_long_words_nonneg text :
  0 <= count_arabic_long_words text.
Proof.
  unfold count_arabic_long_words.
  apply (count_loop_nonneg (fun t => len t >? 5)). lia.
Qed.

Lemma count_monosyllable_words_nonneg text lang :
  0 <= count_monosyllable_words text lang.
Proof. apply len_nonneg. Qed.

Lemma count_chars_nonneg text b : 0 <= count_chars text b.
Proof. apply len_nonneg. Qed.

(** ** The counter and its most common element *)

Lemma votes_for_app g h v : votes_for (g ++ h) v = votes_for g v + votes_for h v.
Proof. unfold votes_for. rewrite count_occ_app. lia. Qed.

Lemma votes_for_pos g v : In v g <-> 0 < votes_for g v.
Proof. unfold votes_for. rewrite (count_occ_In Z.eq_dec). lia. Qed.

Lemma votes_for_single k v : votes_for [k] v = if v =? k then 1 else 0.
Proof.
  unfold votes_for. simpl. destruct (Z.eq_dec k v) as [-> | Hn].
  - rewrite Z.eqb_refl. reflexivity.
  - assert (E : (v =? k) = false) by (apply Z.eqb_neq; congruence).
    rewrite E. reflexivity.
Qed.

Lemma existsb_eqb_In k ks : existsb (Z.eqb k) ks = true <-> In k ks.
Proof.
  rewrite existsb_exists. split.
  - intros (x & Hx & E). apply Z.eqb_eq in E. subst. exact Hx.
  - intros H. exists k. split; [exact H | apply Z.eqb_refl].
Qed.

Lemma first_keys_snoc g k :
  first_keys (g ++ [k])
  = if existsb (Z.eqb k) (first_keys g) then first_keys g
    else first_keys g ++ [k].
Proof. unfold first_keys. rewrite fold_left_app. reflexivity. Qed.

Lemma counter_of_snoc g k : counter_of (g ++ [k]) = counter_add k (counter_of g).
Proof. unfold counter_of. rewrite fold_left_app. reflexivity. Qed.

(** Counting a key the counter has updates its entry in place; a new key
    goes to the end. *)
Lemma counter_add_map k (c : Z -> Z) ks :
  NoDup ks ->
  counter_add k (map (fun k' => (k', c k')) ks)
  = if existsb (Z.eqb k) ks
    then map (fun k' => (k', if k' =? k then c k' + 1 else c k')) ks
    else map (fun k' => (k', c k')) ks ++ [(k, 1)].
Proof.
  induction ks as [|k0 ks IH]; intros Hnd; simpl; [reflexivity|].
  inversion Hnd as [|? ? Hk0 Hnd']; subst.
  rewrite (Z.eqb_sym k k0). destruct (k0 =? k) eqn:E; simpl.
  - apply Z.eqb_eq in E. subst k0. f_equal.
    apply map_ext_in. intros k' Hk'.
    assert (E : (k' =? k) = false) by (apply Z.eqb_neq; congruence).
    rewrite E. reflexivity.
  - rewrite IH by exact Hnd'.
    destruct (existsb (Z.eqb k) ks); reflexivity.
Qed.

Lemma first_keys_spec g :
  NoDup (first_keys g)
  /\ (forall k, In k (first_keys g) <-> In k g)
  /\ counter_of g = map (fun k => (k, votes_for g k)) (first_keys g).
Proof.
  clear.
  induction g as [|k g (Hnd & Hin & Hc)] using rev_ind.
  - repeat split; try constructor; simpl; tauto.
  - rewrite first_keys_snoc, counter_of_snoc, Hc, counter_add_map by exact Hnd.
    destruct (existsb (Z.eqb k) (first_keys g)) eqn:E.
    + apply existsb_eqb_In in E. repeat split.
      * exact Hnd.
      * intros Hk. apply in_or_app. left. apply Hin. exact Hk.
      * intros Hk. apply in_app_or in Hk as [Hk | [<- | []]];
          [apply Hin; exact Hk | exact E].
      * apply map_ext. intros k'. rewrite votes_for_app, votes_for_single.
        destruct (k' =? k); f_equal; lia.
    + assert (Hk : ~ In k (first_keys g)).
      { intros H. apply existsb_eqb_In in H. congruence. }
      repeat split.
      * apply NoDup_app; [exact Hnd | repeat constructor; simpl; tauto |].
        intros x Hx [<- | []]. apply Hk. exact Hx.
      * intros H. apply in_app_or in H as [H | H]; apply in_or_app;
          [left; apply Hin; exact H | right; exact H].
      * intros H. apply in_app_or in H as [H | H]; apply in_or_app;
          [left; apply Hin; exact H | right; exact H].
      * rewrite map_app. simpl. f_equal.
        -- apply map_ext_in. intros k' Hk'.
           rewrite votes_for_app, votes_for_single.
           assert (E' : (k' =? k) = false) by (apply Z.eqb_neq; congruence).
           rewrite E'. f_equal. lia.
        -- rewrite votes_for_app, votes_for_single, Z.eqb_refl.
           assert (H0 : votes_for g k = 0).
           { destruct (Z.eq_dec (votes_for g k) 0) as [H0 | H0]; [exact H0|].
             exfalso. apply Hk. apply Hin. apply votes_for_pos.
             unfold votes_for in *. lia. }
           rewrite H0. reflexivity.
Qed.

(** A key stands after the keys that were inserted before it. *)
Lemma first_keys_split g :
  forall ks1 v ks2, first_keys g = ks1 ++ v :: ks2 ->
    exists l1 l2, g = l1 ++ v :: l2 /\ ~ In v l1
                  /\ forall w, In w l1 -> In w ks1.
Proof.
  induction g as [|k g IH] using rev_ind; intros ks1 v ks2 H.
  - destruct ks1; discriminate.
  - rewrite first_keys_snoc in H.
    destruct (existsb (Z.eqb k) (first_keys g)) eqn:E.
    + destruct (IH _ _ _ H) as (l1 & l2 & -> & Hv & Hl1).
      exists l1, (l2 ++ [k]). rewrite <- app_assoc. auto.
    + destruct ks2 as [|x ks2' _] using rev_ind.
      * apply app_inj_tail in H as [<- <-].
        destruct (first_keys_spec g) as (_ & Hin & _).
        exists g, []. repeat split.
        -- intros Hk. apply Hin in Hk. apply existsb_eqb_In in Hk. congruence.
        -- intros w Hw. apply Hin. exact Hw.
      * rewrite app_comm_cons, app_assoc in H.
        apply app_inj_tail in H as [H _].
        destruct (IH _ _ _ H) as (l1 & l2 & -> & Hv & Hl1).
        exists l1, (l2 ++ [k]). rewrite <- app_assoc. auto.
Qed.

(** [max] returns the first of the items with the greatest count. *)
Lemma max_by_count_spec rest :
  forall pre best post,
    (forall it, In it pre -> snd it < snd best) ->
    (forall it, In it post -> snd it <= snd best) ->
    exists d1 d2,
      pre ++ best :: post ++ rest = d1 ++ max_by_count best rest :: d2
      /\ (forall it, In it d1 -> snd it < snd (max_by_count best rest))
      /\ (forall it, In it d2 -> snd it <= snd (max_by_count best rest)).
Proof.
  unfold max_by_count.
  induction rest as [|it rest IH]; intros pre best post Hpre Hpost; simpl.
  - exists pre, post. rewrite app_nil_r. auto.
  - destruct (snd best <? snd it) eqn:E.
    + apply Z.ltb_lt in E.
      destruct (IH (pre ++ best :: post) it []) as (d1 & d2 & H & H1 & H2).
      * intros x Hx. apply in_app_or in Hx as [Hx | [<- | Hx]].
        -- specialize (Hpre x Hx). lia.
        -- exact E.
        -- specialize (Hpost x Hx). lia.
      * intros x [].
      * exists d1, d2. rewrite <- H. simpl.
        rewrite <- !app_assoc. simpl. auto.
    + apply Z.ltb_ge in E.
      destruct (IH pre best (post ++ [it])) as (d1 & d2 & H & H1 & H2).
      * exact Hpre.
      * intros x Hx. apply in_app_or in Hx as [Hx | [<- | []]];
          [apply Hpost; exact Hx | exact E].
      * exists d1, d2. rewrite <- H. rewrite <- !app_assoc. simpl. auto.
Qed.

Lemma final_grade_spec g :
  g <> [] -> exists v, final_grade g = Ret v /\ first_most_common g v.
Proof.
  intros Hg. destruct (first_keys_spec g) as (Hnd & Hin & Hc).
  unfold final_grade, most_common_1.
  destruct (counter_of g) as [|it rest] eqn:Hd.
  { exfalso. symmetry in Hc. apply map_eq_nil in Hc.
    destruct g as [|x g]; [contradiction|].
    assert (Hx : In x (first_keys (x :: g))) by (apply Hin; left; reflexivity).
    rewrite Hc in Hx. contradiction. }
  destruct (max_by_count_spec rest [] it []) as (d1 & d2 & H & H1 & H2);
    try (intros ? []).
  simpl in H. destruct (max_by_count it rest) as [v c] eqn:Hm. simpl in *.
  exists v. split; [reflexivity|].
  rewrite H in Hc. symmetry in Hc.
  apply map_eq_app in Hc as (ks1 & ks' & Hks & Hd1 & Hd2).
  apply map_eq_cons in Hd2 as (v' & ks2 & -> & Hv & Hd2).
  injection Hv as -> <-.
  assert (Hle : forall w, In w (first_keys g) -> votes_for g w <= votes_for g v).
  { intros w Hw. rewrite Hks in Hw.
    apply in_app_or in Hw as [Hw | [<- | Hw]].
    - assert (Hi : In (w, votes_for g w) d1).
      { rewrite <- Hd1. apply in_map_iff. exists w. auto. }
      specialize (H1 _ Hi). simpl in H1. lia.
    - lia.
    - assert (Hi : In (w, votes_for g w) d2).
      { rewrite <- Hd2. apply in_map_iff. exists w. auto. }
      specialize (H2 _ Hi). simpl in H2. lia. }
  split.
  - intros w. destruct (in_dec Z.eq_dec w g) as [Hw | Hw].
    + apply Hle. apply Hin. exact Hw.
    + assert (votes_for g w = 0).
      { unfold votes_for. apply (count_occ_not_In Z.eq_dec) in Hw. lia. }
      unfold votes_for in *. lia.
  - destruct (first_keys_split g ks1 v ks2 Hks) as (l1 & l2 & Hgl & Hv1 & Hl1).
    exists l1, l2. repeat split; [exact Hgl | exact Hv1 |].
    intros w Hw. apply Hl1 in Hw.
    assert (Hi : In (w, votes_for g w) d1).
    { rewrite <- Hd1. apply in_map_iff. exists w. auto. }
    specialize (H1 _ Hi). simpl in H1. exact H1.
Qed.

(** ** The order of the floats *)

Ltac cmp_cases :=
  repeat match goal with
    | |- context [Z.compare ?a ?b] => destruct (Z.compare_spec a b)
    | |- context [Pos.compare_cont Eq ?a ?b] =>
        change (Pos.compare_cont Eq a b) with (Pos.compare a b);
        destruct (Pos.compare_spec a b)
    end.

Lemma SFleb_ltb_trans x y z :
  SFleb x y = true -> SFltb y z = true -> SFltb x z = true.
Proof.
  unfold SFleb, SFltb.
  destruct x as [sx|sx| |sx mx ex], y as [sy|sy| |sy my ey],
    z as [sz|sz| |sz mz ez]; simpl; try discriminate; try congruence;
    try (destruct sx; simpl; try discriminate; try congruence);
    try (destruct sy; simpl; try discriminate; try congruence);
    try (destruct sz; simpl; try discriminate; try congruence);
    cmp_cases; simpl; intros; subst;
    try discriminate; try reflexivity; try lia.
Qed.

(** [s >= a] and [s < b] leave [a < b]. *)
Lemma ge_lt_trans (a s b : float) :
  ge s a = true -> lt s b = true -> PrimFloat.ltb a b = true.
Proof.
  unfold ge, lt. rewrite leb_spec, !ltb_spec. apply SFleb_ltb_trans.
Qed.

(** ** The votes of the Flesch Reading Ease score *)

(** Two bounds that cannot hold together. *)
Ltac bounds_clash :=
  exfalso;
  match goal with
  | Hge : ge ?s ?a = true, Hlt : lt ?s ?b = true |- _ =>
      let X := fresh in
      pose proof (ge_lt_trans a s b Hge Hlt) as X;
      vm_compute in X; discriminate X
  end.

Ltac below lo :=
  match goal with
  | |- context [ge ?s lo] =>
      let E := fresh in
      destruct (ge s lo) eqn:E; [bounds_clash | rewrite ?andb_false_r]
  end.

Lemma fre_votes_in_bucket s lo hi v :
  In (lo, hi, v) fre_table -> ge s lo = true -> lt s hi = true ->
  fre_votes s = v.
Proof.
  unfold fre_table, fre_votes. intros Hin Hge Hlt.
  repeat (destruct Hin as [Hin | Hin];
          [injection Hin as <- <- <-|]); [..|contradiction].
  - rewrite Hge, Hlt. reflexivity.
  - below 90%float. rewrite Hge, Hlt. reflexivity.
  - below 90%float. below 80%float. rewrite Hge, Hlt. reflexivity.
  - below 90%float. below 80%float. below 70%float.
    rewrite Hge, Hlt. reflexivity.
  - below 90%float. below 80%float. below 70%float. below 60%float.
    rewrite Hge, Hlt. reflexivity.
  - below 90%float. below 80%float. below 70%float. below 60%float.
    below 50%float. rewrite Hge, Hlt. reflexivity.
  - below 90%float. below 80%float. below 70%float. below 60%float.
    below 50%float. below 40%float. rewrite Hge, Hlt. reflexivity.
Qed.

Lemma fre_votes_other s :
  (forall b, In b fre_table -> in_bucket s b = false) -> fre_votes s = [13].
Proof.
  clear.
  intros H. unfold fre_votes.
  assert (H5 := H (90%float, 100%float, [5])).
  assert (H6 := H (80%float, 90%float, [6])).
  assert (H7 := H (70%float, 80%float, [7])).
  assert (H8 := H (60%float, 70%float, [8; 9])).
  assert (H10 := H (50%float, 60%float, [10])).
  assert (H11 := H (40%float, 50%float, [11])).
  assert (H12 := H (30%float, 40%float, [12])).
  unfold fre_table, in_bucket in *. simpl In in *.
  rewrite (andb_comm (lt s 100)), H5 by tauto.
  rewrite (andb_comm (lt s 90)), H6 by tauto.
  rewrite (andb_comm (lt s 80)), H7 by tauto.
  rewrite (andb_comm (lt s 70)), H8 by tauto.
  rewrite (andb_comm (lt s 60)), H10 by tauto.
  rewrite (andb_comm (lt s 50)), H11 by tauto.
  rewrite (andb_comm (lt s 40)), H12 by tauto.
  reflexivity.
Qed.

Lemma fre_bucket_unique s b b' :
  In b fre_table -> In b' fre_table ->
  in_bucket s b = true -> in_bucket s b' = true -> b = b'.
Proof.
  unfold fre_table. intros Hb Hb'.
  repeat (destruct Hb as [<- | Hb]); [..|contradiction];
    repeat (destruct Hb' as [<- | Hb']); try contradiction;
    simpl in_bucket; intros H H'; try reflexivity;
    apply andb_true_iff in H as [? ?];
    apply andb_true_iff in H' as [? ?]; bounds_clash.
Qed.

(** ** The formulas on texts without words *)

Lemma int_truediv_zero a : int_truediv a 0 = Raise ZeroDivisionError.
Proof. reflexivity. Qed.

Lemma automated_readability_index_no_words text :
  count_words text true = 0 ->
  automated_readability_index text = Ret 0%float.
Proof.
  intros H. unfold automated_readability_index. rewrite H. reflexivity.
Qed.

Lemma smog_index_short text lang :
  count_sentences text < 3 -> smog_index text lang = Ret 0%float.
Proof.
  intros H. unfold smog_index. apply Z.ltb_lt in H. rewrite H. reflexivity.
Qed.

Lemma smog_index_no_words text lang :
  count_words text true = 0 -> smog_index text lang = Ret 0%float.
Proof.
  intros H. apply smog_index_short.
  rewrite (count_sentences_no_words text H). lia.
Qed.

(** ** The consensus of the empty text *)

Lemma count_words_empty : count_words [] true = 0.
Proof. reflexivity. Qed.

Lemma text_standard_grade_empty lang :
  zero_division_policy lang ->
  text_standard_grade [] lang = Ret [0; 0; 13; 0; 0; 0; 0; 0; 0; 0; 0; 0; 0; 0; 0].
Proof.
  intros H.
  destruct (H [] count_words_empty) as (Hfk & Hfre & Hcl & Hdc & Hlw & Hgf).
  unfold text_standard_grade.
  rewrite Hfk, Hfre, Hcl, Hdc, Hlw, Hgf.
  rewrite (smog_index_no_words [] lang count_words_empty).
  rewrite (automated_readability_index_no_words [] count_words_empty).
  reflexivity.
Qed.

Lemma text_standard_empty lang :
  zero_division_policy lang -> text_standard [] lang = Ret 0%float.
Proof.
  intros H. unfold text_standard.
  rewrite (text_standard_grade_empty lang H). reflexivity.
Qed.

(* ================================================================== *)
(** * The claims *)
(* ================================================================== *)

(** C1. On an instance that does not round, the public [text_standard]
    returns for the empty string the float [0.0] when [float_output] is
    true, the formulas outside the embedded modules following the
    division-by-zero policy. The string it returns when [float_output] is
    false is built from [int(g) - 1] and that number plus one, [g] being
    the same consensus value: whenever the float is [0.0], for the empty
    string or any other text, the string starts with [-1] and ends in
    [0<suffix> grade]. It is not "0th and 1st grade". *)
Theorem text_standard_empty_string (self : textstatistics) :
  round_points self = None ->
  (zero_division_policy (lang self) ->
   textstatistics_text_standard self [] true = Ret (Number 0%float))
  /\ (forall text,
        textstatistics_text_standard self text true = Ret (Number 0%float) ->
        textstatistics_text_standard self text false
        = Ret (Str (py "-1" ++ get_grade_suffix (-1) ++ py " and 0"
                    ++ get_grade_suffix 0 ++ py " grade"))
        /\ textstatistics_text_standard self text false
           <> Ret (Str (py "0th and 1st grade"))).
Proof.
  intros Hround. unfold textstatistics_text_standard, legacy_round.
  rewrite Hround. split.
  - intros Hpolicy. rewrite (text_standard_empty _ Hpolicy). reflexivity.
  - intros text H.
    destruct (text_standard text (lang self)) as [x | e];
      simpl in H; [|discriminate H].
    injection H as ->. simpl.
    split; [reflexivity | intros H; discriminate H].
Qed.

(** C2. The consensus grade of [text_standard] is a value with the
    highest count among the votes appended to [grade], and every value
    appended before its first vote has a strictly lower count: of the
    values that share the highest count, the one appended first wins.
    The order of the votes decides, not the size of the values: in
    [2, 1, 3, 2, 1, 3] all three values have two votes and 2 wins. *)
Theorem text_standard_consensus (text lang : pystr) (grade : list Z) :
  text_standard_grade text lang = Ret grade ->
  (exists v, first_most_common grade v
             /\ final_grade grade = Ret v
             /\ text_standard text lang = float_of_int v)
  /\ final_grade [2; 1; 3; 2; 1; 3] = Ret 2.
Proof.
  intros Hgrade. split; [|reflexivity].
  assert (Hne : grade <> []).
  { unfold text_standard_grade in Hgrade.
    repeat match type of Hgrade with
           | bind ?m _ = Ret _ =>
               let E := fresh "E" in
               destruct m eqn:E; simpl in Hgrade; [|discriminate Hgrade]
           end.
    injection Hgrade as <-.
    match goal with
    | E : floor_and_ceil (gunning_fog _ _) _ = Ret _ |- _ =>
        unfold floor_and_ceil in E;
        repeat match type of E with
               | bind ?m _ = Ret _ =>
                   destruct m; simpl in E; [|discriminate E]
               end;
        injection E as <-
    end.
    intros H. apply app_eq_nil in H as [_ H]. discriminate H. }
  destruct (final_grade_spec grade Hne) as (v & Hv & Hfirst).
  exists v. repeat split; try apply Hfirst; [exact Hv|].
  unfold text_standard. rewrite Hgrade. simpl. rewrite Hv. reflexivity.
Qed.

(** C3. The Flesch Reading Ease score [s] votes by the table: 5 for
    [90 <= s < 100], 6 for [80 <= s < 90], 7 for [70 <= s < 80], 8 and 9
    for [60 <= s < 70], 10 for [50 <= s < 60], 11 for [40 <= s < 50], 12
    for [30 <= s < 40], and 13 for every other value (not a number
    included); a score lies in one bucket of the table at most. *)
Theorem fre_votes_by_table (s : float) :
  (forall lo hi v, In (lo, hi, v) fre_table ->
     ge s lo = true -> lt s hi = true -> fre_votes s = v)
  /\ ((forall b, In b fre_table -> in_bucket s b = false) ->
      fre_votes s = [13])
  /\ (forall b b', In b fre_table -> In b' fre_table ->
        in_bucket s b = true -> in_bucket s b' = true -> b = b').
Proof.
  split; [|split].
  - intros lo hi v. apply fre_votes_in_bucket.
  - apply fre_votes_other.
  - intros b b'. apply fre_bucket_unique.
Qed.

(** C4. [count_sentences] is at least 1, and [count_arabic_long_words]
    and [count_monosyllable_words] are never negative; but
    [count_arabic_syllables] returns -2 for the empty string. It is
    never below -2. *)
Theorem counters_sign :
  (forall text, 1 <= count_sentences text)
  /\ (forall text, 0 <= count_arabic_long_words text)
  /\ (forall text lang, 0 <= count_monosyllable_words text lang)
  /\ count_arabic_syllables [] = -2
  /\ (forall text, -2 <= count_arabic_syllables text).
Proof.
  split; [|split; [|split; [|split]]].
  - apply count_sentences_ge_1.
  - apply count_arabic_long_words_nonneg.
  - apply count_monosyllable_words_nonneg.
  - rewrite count_arabic_syllables_eq. reflexivity.
  - intros text. rewrite count_arabic_syllables_eq.
    pose proof (len_nonneg (filter (fun c => negb (is_filler c)) text)).
    pose proof (len_nonneg (filter is_stress text)). lia.
Qed.

(** C5. [count_arabic_syllables] takes its fall-back on every text,
    also on a text with short-vowel diacritics: the scan looks for the
    six characters of an escape sequence in single characters and finds
    no mark, so [short_count] is 0 at the test. The word kaf, fatha, teh,
    fatha, beh, fatha has three short vowels and gets 6 - 2 = 4 from the
    fall-back. With the marks as single characters the same scan counts
    its three short syllables, and the test would not take the
    fall-back. *)
Theorem count_arabic_syllables_fallback :
  (forall text,
     fallback_applied text = true
     /\ count_arabic_syllables text
        = approximate_short_count text + 2 * stress_count text)
  /\ existsb is_short_vowel kataba = true
  /\ count_arabic_syllables kataba = 4
  /\ scan_tashkeel [[0x064E]; [0x064F]; [0x0650]]%N
                   (map (fun c => [c]) kataba) = (3, 0).
Proof.
  split; [|split; [|split]].
  - intros text. unfold fallback_applied, count_arabic_syllables.
    rewrite scan_tashkeel_char_list. split; reflexivity.
  - reflexivity.
  - rewrite count_arabic_syllables_eq. reflexivity.
  - reflexivity.
Qed.


(** C7, amended. On a text without words [automated_readability_index]
    and [smog_index] return [0.0]: they raise nothing and return neither
    an infinity nor a NaN. [smog_index] returns [0.0] as well whenever
    the text has fewer than 3 sentences. The third function of the
    module, the average [chars_per_word], returns the number of
    characters there, an [int], from its handler. *)
Theorem formulas_without_words (text lang : pystr) (ignore_spaces : bool) :
  (count_words text true = 0 ->
   automated_readability_index text = Ret 0%float
   /\ smog_index text lang = Ret 0%float
   /\ chars_per_word text ignore_spaces
      = Ret (Int (count_chars text ignore_spaces)))
  /\ (count_sentences text < 3 -> smog_index text lang = Ret 0%float).
Proof.
  split.
  - intros H. split; [|split].
    + apply automated_readability_index_no_words. exact H.
    + apply smog_index_no_words. exact H.
    + unfold chars_per_word. rewrite H, int_truediv_zero. reflexivity.
  - apply smog_index_short.
Qed.

(** C8. For feh, fatha, alef the scan of [count_arabic_syllables] counts
    no syllable at all, short or long, and the function returns 0: the
    marks it looks for are the six characters of their escape sequences.
    With the marks as single characters, and the three characters in
    [char_list], the scan counts one long syllable. *)
Theorem count_arabic_syllables_fa :
  scan_tashkeel tashkeel (char_list [0x0641; 0x064E; 0x0627]%N) = (0, 0)
  /\ count_arabic_syllables [0x0641; 0x064E; 0x0627]%N = 0
  /\ scan_tashkeel [[0x064E]; [0x064F]; [0x0650]]%N
                   [[0x0641]; [0x064E]; [0x0627]]%N = (0, 1).
Proof.
  split; [|split].
  - apply scan_tashkeel_char_list.
  - rewrite count_arabic_syllables_eq. reflexivity.
  - reflexivity.
Qed.

(** C9. Terminal marks appended to a text leave [count_sentences] as it
    is; it does not decrease. *)
Theorem count_sentences_monotone (text p : pystr) :
  p <> [] -> forallb is_terminal p = true ->
  count_sentences text <= count_sentences (text ++ p).
Proof.
  intros _ Hp. rewrite (count_sentences_app_terminals text p Hp). lia.
Qed.

(** C10. When a text has no word but some characters, [chars_per_word]
    returns the number of characters, an [int], and not [0.0]. *)
Theorem chars_per_word_without_words (text : pystr) (ignore_spaces : bool) :
  count_words text true = 0 ->
  0 < count_chars text ignore_spaces ->
  chars_per_word text ignore_spaces = Ret (Int (count_chars text ignore_spaces))
  /\ chars_per_word text ignore_spaces <> Ret (Float 0%float).
Proof.
  intros Hwords _. unfold chars_per_word. rewrite Hwords. simpl.
  split; [reflexivity | discriminate].
Qed.

(* ================================================================== *)
(** * Further properties *)
(* ================================================================== *)

(** ** Sentences and terminal marks *)

Lemma scan_length_bound t :
  forall st,
    (List.length (scan st t)
     <= List.length (filter is_terminal t)
        + match st with Tail _ => 2 | _ => 1 end)%nat.
Proof.
  induction t as [|c r IH]; intros st.
  - destruct st; simpl; lia.
  - destruct st as [pw | acc | acc]; simpl.
    + destruct (is_terminal c) eqn:Hc; simpl.
      * rewrite andb_false_r. specialize (IH (Seeking (is_word c))).
        simpl in IH. lia.
      * rewrite andb_true_r. destruct (xorb pw (is_word c)).
        -- specialize (IH (Body [c])). simpl in IH. lia.
        -- specialize (IH (Seeking (is_word c))). simpl in IH. lia.
    + destruct (is_terminal c) eqn:Hc; simpl.
      * specialize (IH (Tail (c :: acc))). simpl in IH. lia.
      * specialize (IH (Body (c :: acc))). simpl in IH. lia.
    + destruct (is_terminal c) eqn:Hc; simpl.
      * specialize (IH (Tail (c :: acc))). simpl in IH. lia.
      * destruct (is_word c).
        -- specialize (IH (Body [c])). simpl in IH. lia.
        -- specialize (IH (Seeking false)). simpl in IH. lia.
Qed.

(** X1. A text has at most one sentence more than it has terminal marks
    [.], [!], [?]: every segment but the last ends in a mark. A text
    without marks is one sentence. *)
Theorem count_sentences_bounded (text : pystr) :
  count_sentences text <= 1 + len (filter is_terminal text)
  /\ (filter is_terminal text = [] -> count_sentences text = 1).
Proof.
  assert (H : count_sentences text <= 1 + len (filter is_terminal text)).
  { rewrite count_sentences_eq, findall_scan.
    pose proof (scan_length_bound text (Seeking false)) as H.
    pose proof (len_nonneg
                  (filter short_segment (scan (Seeking false) text))).
    unfold len in *. simpl in H. lia. }
  split; [exact H|].
  intros Hnone. rewrite Hnone in H. unfold len in H. simpl in H.
  pose proof (count_sentences_ge_1 text). lia.
Qed.

Lemma scan_skip_non_word p t :
  forallb (fun c => negb (is_word c)) p = true ->
  scan (Seeking false) (p ++ t) = scan (Seeking false) t.
Proof.
  induction p as [|c r IH]; intros H; simpl in *; [reflexivity|].
  apply andb_true_iff in H as [Hc Hr]. apply negb_true_iff in Hc.
  rewrite Hc. simpl. apply IH. exact Hr.
Qed.

(** X2. Characters before the first word character of a text, white
    space and punctuation of any kind, do not change the number of
    sentences; a text without a word character is one sentence. *)
Theorem count_sentences_leading (p text : pystr) :
  forallb (fun c => negb (is_word c)) p = true ->
  count_sentences (p ++ text) = count_sentences text
  /\ count_sentences p = 1.
Proof.
  intros Hp.
  assert (H : forall t, count_sentences (p ++ t) = count_sentences t).
  { intros t. rewrite !count_sentences_eq, !findall_scan.
    rewrite (scan_skip_non_word p t Hp). reflexivity. }
  split; [apply H|].
  rewrite <- (app_nil_r p), (H []). reflexivity.
Qed.

(** ** Exceptions of the averages and formulas *)

Lemma int_truediv_nonzero a b :
  b <> 0 ->
  (exists q, int_truediv a b = Ret q) \/ int_truediv a b = Raise OverflowError.
Proof.
  intros Hb. unfold int_truediv. apply Z.eqb_neq in Hb. rewrite Hb.
  destruct (SFdiv prec emax (SF_of_int a) (SF_of_int b));
    try (left; eexists; reflexivity); right; reflexivity.
Qed.


(** X4. No [ZeroDivisionError] leaves [automated_readability_index]:
    it returns a float, or raises [OverflowError] when a quotient of the
    counts is too large for a float. The number of sentences is never a
    zero divisor. *)
Theorem automated_readability_index_total (text : pystr) :
  (exists score, automated_readability_index text = Ret score)
  \/ automated_readability_index text = Raise OverflowError.
Proof.
  unfold automated_readability_index.
  destruct (Z.eq_dec (count_words text true) 0) as [Hw | Hw].
  - rewrite Hw. left. eexists. reflexivity.
  - destruct (int_truediv_nonzero (count_chars text true) _ Hw)
      as [[a Ha] | Ha]; rewrite Ha; simpl; [|right; reflexivity].
    assert (Hs : count_sentences text <> 0).
    { pose proof (count_sentences_ge_1 text). lia. }
    destruct (int_truediv_nonzero (count_words text true) _ Hs)
      as [[b Hb] | Hb]; rewrite Hb; simpl;
      [left; eexists; reflexivity | right; reflexivity].
Qed.

(** ** The votes of a formula *)

Lemma floor_ceil_div n d :
  0 < d -> n / d <= - (- n / d) <= n / d + 1.
Proof.
  intros Hd.
  pose proof (Z.div_mod n d ltac:(lia)).
  pose proof (Z.mod_pos_bound n d Hd).
  pose proof (Z.div_mod (- n) d ltac:(lia)).
  pose proof (Z.mod_pos_bound (- n) d Hd).
  nia.
Qed.

Lemma shiftl_floor_ceil n e :
  Z.shiftl n e <= - Z.shiftl (- n) e <= Z.shiftl n e + 1.
Proof.
  destruct (Z.le_gt_cases 0 e) as [He | He].
  - rewrite !Z.shiftl_mul_pow2 by exact He. lia.
  - rewrite !Z.shiftl_div_pow2 by lia.
    apply floor_ceil_div. apply Z.pow_pos_nonneg; lia.
Qed.

Lemma floor_ceil_finite x :
  is_finite x = true ->
  exists lower upper,
    floor x = Ret lower /\ ceil x = Ret upper
    /\ lower <= upper <= lower + 1.
Proof.
  unfold is_finite, floor, ceil.
  destruct (Prim2SF x) as [s | s | | s m e]; try discriminate; intros _.
  - exists 0, 0. repeat split; lia.
  - eexists _, _. split; [reflexivity|]. split; [reflexivity|].
    apply shiftl_floor_ceil.
Qed.

Lemma floor_ceil_not_finite x :
  is_finite x = false ->
  floor x = Raise (conversion_error x) /\ ceil x = Raise (conversion_error x).
Proof.
  unfold is_finite, floor, ceil, conversion_error.
  destruct (Prim2SF x); try discriminate; intros _; split; reflexivity.
Qed.

Lemma floor_and_ceil_ret r grade grade' :
  floor_and_ceil r grade = Ret grade' <->
  exists x lower upper,
    r = Ret x /\ is_finite x = true
    /\ floor x = Ret lower /\ ceil x = Ret upper
    /\ lower <= upper <= lower + 1
    /\ grade' = grade ++ [lower; upper].
Proof.
  unfold floor_and_ceil. split.
  - destruct r as [x | e]; simpl; [|discriminate].
    destruct (is_finite x) eqn:Hx.
    + destruct (floor_ceil_finite x Hx) as (lo & hi & Hlo & Hhi & Hle).
      rewrite Hlo. simpl. rewrite Hhi. simpl. intros H. injection H as <-.
      exists x, lo, hi. repeat split; auto; lia.
    + destruct (floor_ceil_not_finite x Hx) as [Hlo _].
      rewrite Hlo. simpl. discriminate.
  - intros (x & lo & hi & -> & _ & Hlo & Hhi & _ & ->). simpl.
    rewrite Hlo. simpl. rewrite Hhi. reflexivity.
Qed.

Lemma floor_is_floor x n : floor x = Ret n -> is_floor_of x n.
Proof.
  unfold floor, is_floor_of.
  destruct (Prim2SF x) as [s | s | | s m e]; try discriminate;
    intros H; injection H as <-; [reflexivity|].
  destruct (0 <=? e) eqn:He.
  - apply Z.leb_le in He. apply Z.shiftl_mul_pow2. exact He.
  - apply Z.leb_gt in He. rewrite Z.shiftl_div_pow2 by lia.
    assert (Hd : 0 < 2 ^ (- e)) by (apply Z.pow_pos_nonneg; lia).
    pose proof (Z.div_mod (int_of_mantissa s m) (2 ^ (- e)) ltac:(lia)).
    pose proof (Z.mod_pos_bound (int_of_mantissa s m) (2 ^ (- e)) Hd).
    lia.
Qed.

Lemma ceil_is_ceil x n : ceil x = Ret n -> is_ceil_of x n.
Proof.
  unfold ceil, is_ceil_of.
  destruct (Prim2SF x) as [s | s | | s m e]; try discriminate;
    intros H; injection H as <-; [reflexivity|].
  destruct (0 <=? e) eqn:He.
  - apply Z.leb_le in He. rewrite Z.shiftl_mul_pow2 by exact He. lia.
  - apply Z.leb_gt in He. rewrite Z.shiftl_div_pow2 by lia.
    assert (Hd : 0 < 2 ^ (- e)) by (apply Z.pow_pos_nonneg; lia).
    pose proof (Z.div_mod (- int_of_mantissa s m) (2 ^ (- e)) ltac:(lia)).
    pose proof (Z.mod_pos_bound (- int_of_mantissa s m) (2 ^ (- e)) Hd).
    lia.
Qed.

(** X5. The two votes of a formula are [math.floor] and [math.ceil] of
    its score, appended in this order at the end of the list: the largest
    integer not above the value of the score and the smallest integer
    not below it. They are equal or consecutive. *)
Theorem floor_and_ceil_votes (score : float) (grade grade' : list Z) :
  floor_and_ceil (Ret score) grade = Ret grade' ->
  exists lower upper,
    grade' = grade ++ [lower; upper]
    /\ floor score = Ret lower /\ ceil score = Ret upper
    /\ is_floor_of score lower /\ is_ceil_of score upper
    /\ lower <= upper <= lower + 1.
Proof.
  intros H. apply floor_and_ceil_ret in H
    as (x & lo & hi & Hx & _ & Hlo & Hhi & Hle & ->).
  injection Hx as <-.
  exists lo, hi. split; [reflexivity|].
  split; [exact Hlo|]. split; [exact Hhi|].
  split; [apply floor_is_floor; exact Hlo|].
  split; [apply ceil_is_ceil; exact Hhi | exact Hle].
Qed.

Lemma floor_and_ceil_returns r grade :
  (exists grade', floor_and_ceil r grade = Ret grade') <-> returns_finite r.
Proof.
  split.
  - intros [g' H]. apply floor_and_ceil_ret in H
      as (x & lo & hi & -> & Hx & _). exists x. auto.
  - intros (x & -> & Hx).
    destruct (floor_ceil_finite x Hx) as (lo & hi & Hlo & Hhi & Hle).
    exists (grade ++ [lo; hi]). apply floor_and_ceil_ret.
    exists x, lo, hi. repeat split; auto; lia.
Qed.

(** ** When the consensus is built *)

Ltac step_bind H :=
  match type of H with
  | bind ?m _ = Ret _ =>
      let E := fresh "E" in
      destruct m eqn:E; simpl in H; [|discriminate H]
  end.

(** [text_standard] builds its list of votes exactly when the Flesch
    Reading Ease formula returns a float, of any kind, and each of the
    seven other formulas returns a finite one. *)
Lemma text_standard_grade_returns (text lang : pystr) :
  (exists grade, text_standard_grade text lang = Ret grade)
  <-> (returns_finite (flesch_kincaid_grade text lang)
       /\ (exists score, flesch_reading_ease text lang = Ret score)
       /\ returns_finite (smog_index text lang)
       /\ returns_finite (coleman_liau_index text)
       /\ returns_finite (automated_readability_index text)
       /\ returns_finite (dale_chall_readability_score text lang)
       /\ returns_finite (linsear_write_formula text lang)
       /\ returns_finite (gunning_fog text lang)).
Proof.
  unfold text_standard_grade. split.
  - intros [grade H].
    step_bind H. step_bind H. repeat step_bind H.
    repeat match goal with
           | E : floor_and_ceil ?r ?g = Ret ?g' |- _ =>
               assert (returns_finite r)
                 by (apply (floor_and_ceil_returns r g); exists g'; exact E);
               clear E
           end.
    repeat split; try assumption. eexists. reflexivity.
  - intros (Hfk & [score Hfre] & Hsmog & Hcl & Hari & Hdc & Hlw & Hgf).
    destruct (proj2 (floor_and_ceil_returns _ []) Hfk) as [g1 E1].
    rewrite E1. simpl. rewrite Hfre. simpl.
    destruct (proj2 (floor_and_ceil_returns _ (g1 ++ fre_votes score)) Hsmog)
      as [g2 E2]. rewrite E2. simpl.
    destruct (proj2 (floor_and_ceil_returns _ g2) Hcl) as [g3 E3].
    rewrite E3. simpl.
    destruct (proj2 (floor_and_ceil_returns _ g3) Hari) as [g4 E4].
    rewrite E4. simpl.
    destruct (proj2 (floor_and_ceil_returns _ g4) Hdc) as [g5 E5].
    rewrite E5. simpl.
    destruct (proj2 (floor_and_ceil_returns _ g5) Hlw) as [g6 E6].
    rewrite E6. simpl.
    destruct (proj2 (floor_and_ceil_returns _ g6) Hgf) as [g7 E7].
    rewrite E7. simpl. eexists. reflexivity.
Qed.

(** X7. When the first formula, the Flesch-Kincaid grade, returns a NaN,
    [text_standard] raises [ValueError], and [OverflowError] when it
    returns an infinity; the public method raises the same. *)
Theorem text_standard_not_finite (self : textstatistics) (text : pystr)
    (score : float) (float_output : bool) :
  flesch_kincaid_grade text (lang self) = Ret score ->
  is_finite score = false ->
  text_standard text (lang self) = Raise (conversion_error score)
  /\ textstatistics_text_standard self text float_output
     = Raise (conversion_error score).
Proof.
  intros Hfk Hx.
  assert (H : text_standard text (lang self) = Raise (conversion_error score)).
  { unfold text_standard, text_standard_grade, floor_and_ceil.
    rewrite Hfk. simpl.
    rewrite (proj1 (floor_ceil_not_finite score Hx)). reflexivity. }
  split; [exact H|].
  unfold textstatistics_text_standard. rewrite H. reflexivity.
Qed.

Lemma floor_and_ceil_length r grade grade' :
  floor_and_ceil r grade = Ret grade' ->
  List.length grade' = (List.length grade + 2)%nat.
Proof.
  intros H. apply floor_and_ceil_ret in H
    as (x & lo & hi & _ & _ & _ & _ & _ & ->).
  rewrite length_app. reflexivity.
Qed.

Lemma fre_votes_length s :
  List.length (fre_votes s) = if ge s 60 && lt s 70 then 2%nat else 1%nat.
Proof.
  destruct (ge s 60) eqn:Hge; destruct (lt s 70) eqn:Hlt; simpl.
  - rewrite (fre_votes_in_bucket s 60%float 70%float [8; 9] ltac:(
               unfold fre_table; do 3 right; left; reflexivity) Hge Hlt).
    reflexivity.
  - unfold fre_votes. rewrite Hlt. simpl.
    repeat match goal with
           | |- context [if ?b then _ else _] => destruct b
           end; reflexivity.
  - unfold fre_votes. rewrite Hge, andb_false_r.
    repeat match goal with
           | |- context [if ?b then _ else _] => destruct b
           end; reflexivity.
  - unfold fre_votes. rewrite Hge, andb_false_r.
    repeat match goal with
           | |- context [if ?b then _ else _] => destruct b
           end; reflexivity.
Qed.

(** X8. The list of votes has 15 elements, and 16 when the Flesch
    Reading Ease score lies in the bucket from 60 to 70, which votes
    twice. *)
Theorem text_standard_grade_length (text lang : pystr) (grade : list Z) :
  text_standard_grade text lang = Ret grade ->
  exists score,
    flesch_reading_ease text lang = Ret score
    /\ List.length grade
       = if ge score 60 && lt score 70 then 16%nat else 15%nat.
Proof.
  unfold text_standard_grade. intros H.
  step_bind H. step_bind H. repeat step_bind H.
  injection H as <-.
  repeat match goal with
         | E : floor_and_ceil _ _ = Ret _ |- _ =>
             apply floor_and_ceil_length in E
         end.
  eexists. split; [reflexivity|].
  match goal with
  | E : List.length _ = (List.length (_ ++ fre_votes ?s) + 2)%nat |- _ =>
      rewrite length_app, (fre_votes_length s) in E
  end.
  simpl in *. destruct (ge _ 60 && lt _ 70); lia.
Qed.

(** ** The Arabic counters *)

(** X9. Whatever the text, [count_arabic_syllables] is the number of its
    characters that the fall-back does not strip, minus 2, plus 2 for
    each stress mark: the short-vowel diacritics are counted as any other
    character. So the count of two texts put together is the sum of
    their counts plus 2. *)
Theorem count_arabic_syllables_closed_form (text text' : pystr) :
  count_arabic_syllables text
  = len (filter (fun c => negb (is_filler c)) text) - 2
    + 2 * len (filter is_stress text)
  /\ count_arabic_syllables (text ++ text')
     = count_arabic_syllables text + count_arabic_syllables text' + 2.
Proof.
  rewrite !count_arabic_syllables_eq, !filter_app, !len_app. split; lia.
Qed.

Lemma len_rev {A} (l : list A) : len (rev l) = len l.
Proof. unfold len. rewrite length_rev. reflexivity. Qed.

Lemma len_cons {A} (x : A) (l : list A) : len (x :: l) = len l + 1.
Proof. unfold len. simpl List.length. lia. Qed.

Lemma total_length_cons x l : total_length (x :: l) = len x + total_length l.
Proof. reflexivity. Qed.

Lemma len_nil {A} : len (@nil A) = 0.
Proof. reflexivity. Qed.

Lemma total_length_split w t :
  total_length (split_from w t) <= len w + len t.
Proof.
  revert w. induction t as [|c r IH]; intros w.
  - pose proof (len_nonneg w).
    destruct w as [|d w']; cbn [split_from].
    + rewrite (@len_nil codepoint). unfold total_length. simpl. lia.
    + rewrite total_length_cons, len_rev, (@len_nil codepoint).
      unfold total_length. simpl fold_right. lia.
  - cbn [split_from]. rewrite (len_cons c r). destruct (isspace c).
    + pose proof (len_nonneg w). specialize (IH []).
      rewrite (@len_nil codepoint) in IH.
      destruct w as [|d w'].
      * rewrite (@len_nil codepoint). lia.
      * rewrite total_length_cons, len_rev. lia.
    + specialize (IH (c :: w)). rewrite len_cons in IH. lia.
Qed.

Lemma long_words_total l n :
  0 <= n ->
  6 * fold_left (fun count t => if len t >? 5 then count + 1 else count) l n
  <= 6 * n + total_length l.
Proof.
  revert n. induction l as [|w l IH]; intros n Hn; cbn [fold_left].
  - unfold total_length. simpl. lia.
  - pose proof (len_nonneg w). rewrite total_length_cons.
    assert (Htl : 0 <= total_length l).
    { clear. induction l as [|x l IHl]; [unfold total_length; simpl; lia|].
      rewrite total_length_cons. pose proof (len_nonneg x). lia. }
    destruct (len w >? 5) eqn:E.
    + apply Z.gtb_lt in E. specialize (IH (n + 1) ltac:(lia)). lia.
    + specialize (IH n Hn). lia.
Qed.

Lemma normalize_length keep prev t :
  len (normalize_from keep prev t) <= len t.
Proof.
  revert prev. induction t as [|c r IH]; intros prev; simpl.
  - lia.
  - match goal with |- context [if ?b then _ else _] => destruct b end;
      specialize (IH (Some c)); unfold len in *; simpl; lia.
Qed.

Lemma filter_len {A} (p : A -> bool) l : len (filter p l) <= len l.
Proof. unfold len. pose proof (filter_length_le p l). lia. Qed.

(** X10. A long Arabic word has more than five characters, and the
    words of a text share none: six times [count_arabic_long_words] is
    at most the length of the text. A text of fewer than six characters
    has no long word. *)
Theorem count_arabic_long_words_bounded (text : pystr) :
  6 * count_arabic_long_words text <= len text.
Proof.
  unfold count_arabic_long_words, sub_empty, remove_punctuation, split.
  rewrite sub_empty_class.
  set (stripped := filter (fun c => negb (is_tashkeel_mark c)) text).
  set (normalized := normalize_from (negb true) None stripped).
  pose proof (long_words_total (split_from [] normalized) 0 ltac:(lia)).
  pose proof (total_length_split [] normalized).
  pose proof (normalize_length (negb true) None stripped).
  pose proof (filter_len (fun c => negb (is_tashkeel_mark c)) text).
  rewrite (@len_nil codepoint) in *. subst normalized stripped. lia.
Qed.

Lemma scan_step_at prefix c r t short_count long_count :
  scan_step (prefix ++ c :: r) t (short_count, long_count)
            (Z.of_nat (List.length prefix), c)
  = if str_eqb c t then
      match r with
      | d :: _ =>
          if str_mem d long_vowels then (short_count, long_count + 1)
          else (short_count + 1, long_count)
      | [] => (short_count + 1, long_count)
      end
    else (short_count, long_count).
Proof.
  unfold scan_step. destruct (str_eqb c t); simpl; [|reflexivity].
  replace (Z.to_nat (Z.of_nat (List.length prefix) + 1))
    with (List.length prefix + 1)%nat by lia.
  rewrite app_nth2 by lia.
  replace (List.length prefix + 1 - List.length prefix)%nat with 1%nat by lia.
  destruct r as [|d r'].
  - simpl. rewrite andb_false_r. reflexivity.
  - simpl nth.
    assert (H : (Z.of_nat (List.length prefix) + 1
                 <? len (prefix ++ c :: d :: r')) = true).
    { apply Z.ltb_lt. unfold len. rewrite length_app. simpl. lia. }
    rewrite H. reflexivity.
Qed.

Lemma inner_loop_counts t suffix :
  forall prefix short_count long_count,
    fold_left (scan_step (prefix ++ suffix) t)
      (combine (map Z.of_nat (seq (List.length prefix) (List.length suffix)))
               suffix)
      (short_count, long_count)
    = (short_count + fst (mark_counts t suffix),
       long_count + snd (mark_counts t suffix)).
Proof.
  induction suffix as [|c r IH]; intros prefix s l.
  - simpl. f_equal; lia.
  - cbn [List.length seq map combine fold_left].
    rewrite scan_step_at.
    replace (prefix ++ c :: r) with ((prefix ++ [c]) ++ r)
      by (rewrite <- app_assoc; reflexivity).
    replace (S (List.length prefix)) with (List.length (prefix ++ [c]))
      by (rewrite length_app; simpl; lia).
    destruct (str_eqb c t) eqn:Hc.
    + destruct r as [|d r'].
      * rewrite IH. cbn [mark_counts]. rewrite Hc. simpl. f_equal; lia.
      * destruct (str_mem d long_vowels) eqn:Hd; rewrite IH;
          remember (d :: r') as r eqn:Hr; cbn [mark_counts]; rewrite Hc;
          destruct (mark_counts t r) as [s' l']; subst r; rewrite Hd;
          simpl; f_equal; lia.
    + rewrite IH. cbn [mark_counts]. rewrite Hc.
      destruct (mark_counts t r) as [s' l']. reflexivity.
Qed.

Lemma outer_loop_counts chars marks :
  forall short_count long_count,
    fold_left
      (fun counts t => fold_left (scan_step chars t) (enumerate chars) counts)
      marks (short_count, long_count)
    = (short_count + fst (all_mark_counts marks chars),
       long_count + snd (all_mark_counts marks chars)).
Proof.
  induction marks as [|t marks IH]; intros s l.
  - simpl. f_equal; lia.
  - cbn [fold_left]. unfold enumerate.
    change (fold_left (scan_step chars t)
              (combine (map Z.of_nat (seq 0 (List.length chars))) chars)
              (s, l))
      with (fold_left (scan_step ([] ++ chars) t)
              (combine
                 (map Z.of_nat
                    (seq (List.length (@nil pystr)) (List.length chars)))
                 chars)
              (s, l)).
    rewrite inner_loop_counts, IH.
    simpl. f_equal; lia.
Qed.

Lemma mark_counts_total t chars :
  fst (mark_counts t chars) + snd (mark_counts t chars)
  = Z.of_nat (count_occ (list_eq_dec N.eq_dec) chars t)
  /\ 0 <= fst (mark_counts t chars) /\ 0 <= snd (mark_counts t chars).
Proof.
  induction chars as [|c r (IH & Hs & Hl)].
  - simpl. lia.
  - cbn [mark_counts count_occ]. unfold str_eqb.
    destruct (mark_counts t r) as [s l] eqn:Hm.
    cbn [fst snd] in IH, Hs, Hl.
    destruct (list_eq_dec N.eq_dec c t).
    + rewrite Nat2Z.inj_succ, <- IH.
      destruct r as [|d r'].
      * cbn [fst snd]. lia.
      * destruct (str_mem d long_vowels); cbn [fst snd]; lia.
    + cbn [fst snd]. lia.
Qed.

(** X11. The two nested loops of the scan, which look at
    [char_list[i + 1]] by index, count each occurrence of each mark once:
    as a long syllable when the next element is alef, waw or ya, and as a
    short one otherwise, also when the mark is the last element. Both
    counts are non-negative and their sum is the number of occurrences of
    the marks. *)
Theorem scan_tashkeel_counts (marks chars : list pystr) :
  scan_tashkeel marks chars = all_mark_counts marks chars
  /\ fst (scan_tashkeel marks chars) + snd (scan_tashkeel marks chars)
     = occurrences marks chars
  /\ 0 <= fst (scan_tashkeel marks chars)
  /\ 0 <= snd (scan_tashkeel marks chars).
Proof.
  assert (H : scan_tashkeel marks chars = all_mark_counts marks chars).
  { unfold scan_tashkeel. rewrite outer_loop_counts.
    destruct (all_mark_counts marks chars). reflexivity. }
  split; [exact H|]. rewrite H. clear H.
  induction marks as [|t marks (IH & Hs & Hl)].
  - simpl. lia.
  - cbn [all_mark_counts occurrences fold_right fst snd] in *.
    fold (all_mark_counts marks chars) in *.
    fold (occurrences marks chars) in *.
    destruct (mark_counts_total t chars) as (Ht & Hts & Htl). lia.
Qed.

(** ** The float of an integer vote

    [float(n)] rounds [n] to 53 bits. The votes are floors and ceilings
    of binary64 values or small constants, so the conversion is exact and
    [int] gives the vote back. *)

Lemma digits2_size p : digits2_pos p = Pos.size p.
Proof. induction p; simpl; congruence. Qed.

Lemma size_bounds p :
  2 ^ (Zpos (Pos.size p) - 1) <= Zpos p < 2 ^ Zpos (Pos.size p).
Proof.
  pose proof (Pos.size_gt p) as Hgt. pose proof (Pos.size_le p) as Hle.
  apply Pos2Z.pos_lt_pos in Hgt. apply Pos2Z.pos_le_pos in Hle.
  rewrite Pos2Z.inj_pow in Hgt, Hle.
  change (Z.pos p~0) with (2 * Z.pos p) in Hle.
  replace (Zpos (Pos.size p)) with (Zpos (Pos.size p) - 1 + 1) in Hle at 1 by lia.
  rewrite Z.pow_add_r in Hle by lia. simpl (2 ^ 1) in Hle. lia.
Qed.

Lemma size_unique p d :
  2 ^ (d - 1) <= Zpos p < 2 ^ d -> Zpos (Pos.size p) = d.
Proof.
  intros [Hlo Hhi]. destruct (size_bounds p) as [Hlo' Hhi'].
  assert (0 < d).
  { destruct (Z.lt_trichotomy d 0) as [H | [H | H]]; [| |exact H].
    - rewrite Z.pow_neg_r in Hhi by exact H. lia.
    - subst d. simpl in Hhi. lia. }
  assert (d - 1 < Zpos (Pos.size p)).
  { apply (Z.pow_lt_mono_r_iff 2); lia. }
  assert (Zpos (Pos.size p) - 1 < d).
  { apply (Z.pow_lt_mono_r_iff 2); lia. }
  lia.
Qed.

Lemma iter_xO q k : Zpos (Pos.iter xO q k) = Zpos q * 2 ^ Zpos k.
Proof.
  induction k as [|k IH] using Pos.peano_ind.
  - simpl. lia.
  - rewrite Pos.iter_succ, (Pos2Z.inj_xO (Pos.iter xO q k)), IH, Pos2Z.inj_succ, Z.pow_succ_r by lia.
    lia.
Qed.

Lemma iter_pos_iter {A} (f : A -> A) n :
  forall x, iter_pos f n x = Pos.iter f x n.
Proof.
  induction n as [n IH | n IH |]; intros x; simpl.
  - rewrite !IH, !Pos.iter_swap. reflexivity.
  - rewrite !IH. reflexivity.
  - reflexivity.
Qed.

Lemma shr_exact q k :
  iter_pos shr_1 k
    {| shr_m := Zpos (Pos.iter xO q k); shr_r := false; shr_s := false |}
  = {| shr_m := Zpos q; shr_r := false; shr_s := false |}.
Proof.
  rewrite iter_pos_iter.
  induction k as [|k IH] using Pos.peano_ind.
  - reflexivity.
  - rewrite !Pos.iter_succ, <- Pos.iter_swap.
    exact IH.
Qed.

Lemma binary_round_aux_canonical s m e :
  canonical_mantissa prec emax m e = true -> e <= 971 ->
  binary_round_aux prec emax s (Zpos m) e loc_Exact = S754_finite s m e.
Proof.
  unfold canonical_mantissa. intros Hc He. apply Z.eqb_eq in Hc.
  unfold binary_round_aux, shr_fexp. cbn [Zdigits2 shr_record_of_loc].
  rewrite Hc, Z.sub_diag. cbn [shr shr_m loc_of_shr_record round_nearest_even].
  cbn [Zdigits2 shr_record_of_loc].
  rewrite Hc, Z.sub_diag. cbn [shr shr_m].
  replace (e <=? emax - prec) with true; [reflexivity|].
  symmetry. apply Z.leb_le. unfold emax, prec. lia.
Qed.

Lemma pow2_pos n : 0 <= n -> 0 < 2 ^ n.
Proof. intros H. apply Z.pow_pos_nonneg; lia. Qed.

Lemma size_shift p q k :
  Zpos p = Zpos q * 2 ^ k -> 0 <= k ->
  Zpos (Pos.size q) = Zpos (Pos.size p) - k.
Proof.
  intros Hp Hk. apply size_unique.
  destruct (size_bounds p) as [Hlo Hhi]. rewrite Hp in Hlo, Hhi.
  pose proof (pow2_pos k Hk) as H2k.
  assert (Hd : k < Zpos (Pos.size p)).
  { apply (Z.pow_lt_mono_r_iff 2); [lia | lia |].
    eapply Z.le_lt_trans; [|exact Hhi]. nia. }
  replace (Zpos (Pos.size p)) with (Zpos (Pos.size p) - k + k) in Hhi by lia.
  replace (Zpos (Pos.size p) - 1) with (Zpos (Pos.size p) - k - 1 + k)
    in Hlo by lia.
  rewrite Z.pow_add_r in Hlo, Hhi by lia.
  split.
  - apply (Z.mul_le_mono_pos_r _ _ (2 ^ k)); [exact H2k | exact Hlo].
  - apply (Z.mul_lt_mono_pos_r (2 ^ k)); [exact H2k | exact Hhi].
Qed.

Lemma binary_round_exact s p m e :
  Zpos p = Zpos m * 2 ^ e -> Zpos m < 2 ^ 53 -> 0 <= e <= 971 ->
  exists q k,
    binary_round prec emax s p 0 = S754_finite s q k
    /\ bounded prec emax q k = true
    /\ Z.shiftl (Zpos q) k = Zpos p.
Proof.
  intros Hp Hm He.
  pose proof (size_shift p m e Hp ltac:(lia)) as Hsm.
  destruct (size_bounds m) as [Hmlo _].
  assert (Hm53 : Zpos (Pos.size m) <= 53).
  { assert (Zpos (Pos.size m) - 1 < 53); [|lia].
    apply (Z.pow_lt_mono_r_iff 2); lia. }
  set (d := Zpos (Pos.size p)) in *.
  assert (Hd : 1 <= d <= 1024) by (subst d; lia).
  unfold binary_round. rewrite digits2_size. fold d.
  assert (Hf : fexp prec emax (d + 0) = d - 53)
    by (unfold fexp, emin, prec, emax; lia).
  rewrite Hf. unfold shl_align. rewrite Z.sub_0_r.
  destruct (d - 53) as [|k|j] eqn:Hk.
  - exists p, 0.
    assert (Hc : canonical_mantissa prec emax p 0 = true).
    { unfold canonical_mantissa. rewrite digits2_size. fold d.
      rewrite Hf. reflexivity. }
    split; [apply binary_round_aux_canonical; [exact Hc | lia]|].
    split; [unfold bounded; rewrite Hc; reflexivity | reflexivity].
  - set (q := Z.to_pos (Zpos m * 2 ^ (e - Zpos k))).
    assert (Hq : Zpos p = Zpos q * 2 ^ Zpos k).
    { unfold q. rewrite Z2Pos.id.
      - rewrite <- Z.mul_assoc, <- Z.pow_add_r by lia.
        replace (e - Zpos k + Zpos k) with e by lia. exact Hp.
      - pose proof (pow2_pos (e - Zpos k) ltac:(lia)). lia. }
    assert (Hpq : p = Pos.iter xO q k).
    { apply Pos2Z.inj. rewrite iter_xO. exact Hq. }
    pose proof (size_shift p q (Zpos k) Hq ltac:(lia)) as Hsq. fold d in Hsq.
    assert (Hc : canonical_mantissa prec emax q (Zpos k) = true).
    { unfold canonical_mantissa. rewrite digits2_size, Hsq. apply Z.eqb_eq.
      unfold fexp, emin, prec, emax. lia. }
    exists q, (Zpos k). split; [|split].
    + unfold binary_round_aux at 1, shr_fexp at 1.
      cbn [Zdigits2 shr_record_of_loc]. rewrite digits2_size. fold d.
      rewrite Hf, Z.sub_0_r. cbn [shr]. rewrite Hpq.
      rewrite shr_exact. cbn [shr_m loc_of_shr_record round_nearest_even].
      unfold canonical_mantissa in Hc. apply Z.eqb_eq in Hc.
      rewrite Z.add_0_l.
      unfold shr_fexp. cbn [Zdigits2 shr_record_of_loc].
      rewrite Hc, Z.sub_diag. cbn [shr shr_m].
      replace (Zpos k <=? emax - prec) with true; [reflexivity|].
      symmetry. apply Z.leb_le. unfold emax, prec. lia.
    + unfold bounded. rewrite Hc. apply Z.leb_le. unfold emax, prec. lia.
    + rewrite Z.shiftl_mul_pow2 by lia. symmetry. exact Hq.
  - assert (Hq : Zpos (Pos.iter xO p j) = Zpos p * 2 ^ Zpos j)
      by apply iter_xO.
    assert (Hs : Zpos (Pos.size (Pos.iter xO p j)) = 53).
    { apply size_unique. destruct (size_bounds p) as [Hlo Hhi]. fold d in Hlo, Hhi.
      rewrite Hq. pose proof (pow2_pos (Zpos j) ltac:(lia)) as H2j.
      replace 53 with (d + Zpos j) by lia.
      replace (d + Zpos j - 1) with (d - 1 + Zpos j) by lia.
      rewrite !Z.pow_add_r by lia. split.
      - apply Z.mul_le_mono_pos_r; [exact H2j | exact Hlo].
      - apply Z.mul_lt_mono_pos_r; [exact H2j | exact Hhi]. }
    assert (Hc : canonical_mantissa prec emax (Pos.iter xO p j) (Zneg j) = true).
    { unfold canonical_mantissa. rewrite digits2_size, Hs. apply Z.eqb_eq.
      unfold fexp, emin, prec, emax. lia. }
    exists (Pos.iter xO p j), (Zneg j). split; [|split].
    + apply binary_round_aux_canonical; [exact Hc | lia].
    + unfold bounded. rewrite Hc. reflexivity.
    + rewrite Z.shiftl_div_pow2 by lia. rewrite Hq.
      change (- Zneg j) with (Zpos j). apply Z.div_mul.
      pose proof (pow2_pos (Zpos j) ltac:(lia)). lia.
Qed.

Lemma representable_small z : Z.abs z < 2 ^ 53 -> representable z.
Proof. intros H. exists z, 0. rewrite Z.mul_1_r. repeat split; lia. Qed.

Lemma float_of_int_exact z :
  representable z ->
  exists f, float_of_int z = Ret f /\ int_of_float f = Ret z.
Proof.
  intros (m & e & -> & Hm & He).
  unfold float_of_int, binary_normalize.
  pose proof (pow2_pos e ltac:(lia)) as H2e.
  destruct m as [|m|m].
  - exists (SF2Prim (S754_zero false)). split; [reflexivity|].
    unfold int_of_float. rewrite Prim2SF_SF2Prim by reflexivity. reflexivity.
  - assert (Hz : exists p, Zpos m * 2 ^ e = Zpos p).
    { exists (Z.to_pos (Zpos m * 2 ^ e)). rewrite Z2Pos.id; lia. }
    destruct Hz as [p Hz]. rewrite Hz.
    destruct (binary_round_exact false p m e (eq_sym Hz) ltac:(lia) He)
      as (q & k & -> & Hb & Hs).
    eexists. split; [reflexivity|].
    unfold int_of_float. rewrite Prim2SF_SF2Prim by exact Hb.
    rewrite Hs. reflexivity.
  - assert (Hz : exists p, Zneg m * 2 ^ e = Zneg p).
    { exists (Z.to_pos (Zpos m * 2 ^ e)).
      assert (Hpos : Zpos (Z.to_pos (Zpos m * 2 ^ e)) = Zpos m * 2 ^ e)
        by (apply Z2Pos.id; lia).
      lia. }
    destruct Hz as [p Hz]. rewrite Hz.
    assert (Hp : Zpos p = Zpos m * 2 ^ e) by lia.
    destruct (binary_round_exact true p m e Hp ltac:(lia) He)
      as (q & k & -> & Hb & Hs).
    eexists. split; [reflexivity|].
    unfold int_of_float. rewrite Prim2SF_SF2Prim by exact Hb.
    rewrite Hs. reflexivity.
Qed.

Lemma valid_mantissa x s m e :
  Prim2SF x = S754_finite s m e -> Zpos m < 2 ^ 53 /\ e <= 971.
Proof.
  intros Hx. pose proof (Prim2SF_valid x) as Hv. rewrite Hx in Hv.
  unfold valid_binary, SpecFloat.valid_binary, bounded in Hv.
  apply andb_prop in Hv as [Hc He]. apply Z.leb_le in He.
  unfold canonical_mantissa in Hc. apply Z.eqb_eq in Hc.
  rewrite digits2_size in Hc.
  unfold emax, prec in He. split; [|lia].
  destruct (size_bounds m) as [_ Hhi].
  eapply Z.lt_le_trans; [exact Hhi|].
  apply Z.pow_le_mono_r; [lia|].
  unfold fexp, emin, prec, emax in Hc. lia.
Qed.

Lemma div_abs_le a b : 0 < b -> Z.abs (a / b) <= Z.abs a.
Proof.
  intros Hb.
  pose proof (Z.div_mod a b ltac:(lia)).
  pose proof (Z.mod_pos_bound a b Hb). nia.
Qed.

Lemma floor_representable x z : floor x = Ret z -> representable z.
Proof.
  unfold floor. destruct (Prim2SF x) as [s | s | | s m e] eqn:Hx;
    try discriminate; intros H; injection H as <-.
  - apply representable_small. simpl. lia.
  - destruct (valid_mantissa x s m e Hx) as [Hm He].
    assert (Hsm : Z.abs (int_of_mantissa s m) < 2 ^ 53)
      by (destruct s; simpl; lia).
    destruct (Z.le_gt_cases 0 e) as [H0 | H0].
    + rewrite Z.shiftl_mul_pow2 by exact H0.
      exists (int_of_mantissa s m), e. repeat split; lia.
    + rewrite Z.shiftl_div_pow2 by lia. apply representable_small.
      eapply Z.le_lt_trans; [|exact Hsm].
      apply div_abs_le. apply pow2_pos. lia.
Qed.

Lemma ceil_representable x z : ceil x = Ret z -> representable z.
Proof.
  unfold ceil. destruct (Prim2SF x) as [s | s | | s m e] eqn:Hx;
    try discriminate; intros H; injection H as <-.
  - apply representable_small. simpl. lia.
  - destruct (valid_mantissa x s m e Hx) as [Hm He].
    assert (Hsm : Z.abs (int_of_mantissa s m) < 2 ^ 53)
      by (destruct s; simpl; lia).
    destruct (Z.le_gt_cases 0 e) as [H0 | H0].
    + rewrite Z.shiftl_mul_pow2 by exact H0.
      exists (int_of_mantissa s m), e. repeat split; lia.
    + rewrite Z.shiftl_div_pow2 by lia. apply representable_small.
      rewrite Z.abs_opp.
      eapply Z.le_lt_trans; [apply div_abs_le; apply pow2_pos; lia|].
      rewrite Z.abs_opp. exact Hsm.
Qed.

Lemma fre_votes_small s v : In v (fre_votes s) -> 5 <= v <= 13.
Proof.
  unfold fre_votes.
  repeat match goal with
         | |- context [if ?b then _ else _] => destruct b
         end; simpl; intros H;
    repeat (let H' := fresh in destruct H as [H' | H]; [lia|]);
    contradiction.
Qed.

Lemma fre_votes_representable s : Forall representable (fre_votes s).
Proof.
  apply Forall_forall. intros v Hv. apply fre_votes_small in Hv.
  apply representable_small.
  apply Z.lt_le_trans with (m := 14); [lia|].
  change 14 with (Z.succ 13). apply Z.le_succ_l. reflexivity.
Qed.

Lemma floor_and_ceil_representable r g g' :
  floor_and_ceil r g = Ret g' ->
  Forall representable g -> Forall representable g' /\ g' <> [].
Proof.
  intros H Hg. apply floor_and_ceil_ret in H
    as (x & lo & hi & _ & _ & Hlo & Hhi & _ & ->).
  split.
  - apply Forall_app. split; [exact Hg|].
    repeat constructor;
      [eapply floor_representable | eapply ceil_representable]; eassumption.
  - intros H. apply app_eq_nil in H as [_ H]. discriminate H.
Qed.

Lemma text_standard_grade_representable text lang grade :
  text_standard_grade text lang = Ret grade ->
  Forall representable grade /\ grade <> [].
Proof.
  unfold text_standard_grade. intros H.
  step_bind H. step_bind H. repeat step_bind H. injection H as <-.
  repeat match goal with
         | E : floor_and_ceil _ ?g = Ret _ |- _ =>
             apply floor_and_ceil_representable in E;
             [ destruct E as [E ?]
             | solve [ constructor
                     | assumption
                     | apply Forall_app; split;
                       [assumption | apply fre_votes_representable] ] ]
         end.
  split; assumption.
Qed.

Lemma text_standard_of_grade text lang grade :
  text_standard_grade text lang = Ret grade ->
  exists g f,
    first_most_common grade g
    /\ float_of_int g = Ret f /\ int_of_float f = Ret g
    /\ text_standard text lang = Ret f.
Proof.
  intros Hgrade.
  destruct (text_standard_grade_representable text lang grade Hgrade)
    as [Hrep Hne].
  destruct (final_grade_spec grade Hne) as (g & Hg & Hfirst).
  assert (Hin : In g grade).
  { destruct Hfirst as (_ & l1 & l2 & -> & _).
    apply in_or_app. right. left. reflexivity. }
  destruct (float_of_int_exact g (proj1 (Forall_forall _ _) Hrep g Hin))
    as (f & Hf & Hi).
  exists g, f. repeat split; try apply Hfirst; try assumption.
  unfold text_standard. rewrite Hgrade. simpl. rewrite Hg. simpl. exact Hf.
Qed.

(** X6. [text_standard], and the public method in either output form,
    returns a value exactly when the Flesch Reading Ease formula returns
    a float, of any kind, and each of the seven other formulas returns a
    finite one: a NaN or an infinity from one of these makes [math.floor]
    raise, while the reading-ease score is only compared; the counter,
    [float(...)] of the winning vote and [int(...)] of that float never
    fail. *)
Theorem text_standard_returns (self : textstatistics) (text : pystr)
    (float_output : bool) :
  ((exists f, text_standard text (lang self) = Ret f)
   <-> formulas_finite text (lang self))
  /\ ((exists v, textstatistics_text_standard self text float_output = Ret v)
      <-> formulas_finite text (lang self)).
Proof.
  unfold formulas_finite. rewrite <- text_standard_grade_returns.
  assert (H1 : (exists f, text_standard text (lang self) = Ret f)
               <-> exists grade,
                     text_standard_grade text (lang self) = Ret grade).
  { split.
    - intros [f H]. unfold text_standard in H.
      destruct (text_standard_grade text (lang self)) as [grade | e];
        [|discriminate H].
      exists grade. reflexivity.
    - intros [grade H].
      destruct (text_standard_of_grade _ _ _ H) as (g & f & _ & _ & _ & Hf).
      exists f. exact Hf. }
  split; [exact H1|]. rewrite <- H1. clear H1. split.
  - intros [v H]. unfold textstatistics_text_standard in H.
    destruct (text_standard text (lang self)) as [f | e]; [|discriminate H].
    exists f. reflexivity.
  - intros [f H]. unfold text_standard in H.
    destruct (text_standard_grade text (lang self)) as [grade | e] eqn:Hgrade;
      [|discriminate H].
    destruct (text_standard_of_grade _ _ _ Hgrade)
      as (g & f' & _ & _ & Hi & Hf).
    unfold textstatistics_text_standard. rewrite Hf. simpl.
    destruct float_output; [eexists; reflexivity|].
    rewrite Hi. simpl. eexists. reflexivity.
Qed.

(** X12. When [text_standard] returns the float [f], then [f] is
    [float(g)] for the consensus grade [g], the first most common vote,
    the conversion is exact ([int(f)] is [g] again), the public method
    returns [f] rounded by the instance when [float_output] is true and
    otherwise the string that names the grades [g - 1] and [g]. *)
Theorem text_standard_band (self : textstatistics) (text : pystr)
    (f : float) :
  text_standard text (lang self) = Ret f ->
  exists grade g,
    text_standard_grade text (lang self) = Ret grade
    /\ first_most_common grade g
    /\ float_of_int g = Ret f /\ int_of_float f = Ret g
    /\ textstatistics_text_standard self text true
       = Ret (Number (legacy_round self f))
    /\ textstatistics_text_standard self text false
       = Ret (Str (grade_band g)).
Proof.
  intros H.
  destruct (text_standard_grade text (lang self)) as [grade | e] eqn:Hgrade;
    [|unfold text_standard in H; rewrite Hgrade in H; discriminate H].
  destruct (text_standard_of_grade _ _ _ Hgrade)
    as (g & f' & Hfirst & Hf & Hi & Hts).
  rewrite Hts in H. injection H as ->.
  exists grade, g. repeat split; try apply Hfirst; try assumption.
  - unfold textstatistics_text_standard. rewrite Hts. reflexivity.
  - unfold textstatistics_text_standard. rewrite Hts. simpl.
    rewrite Hi. simpl. unfold grade_band.
    replace (g - 1 + 1) with g by lia. reflexivity.
Qed.

End Textstat.

(* ================================================================== *)
(** * The claims on examples *)
(* ================================================================== *)

Local Abbreviation ascii_only := Fixture.no_table.

(** The formulas of [Fixture] follow the division-by-zero policy. *)
Lemma fixture_policy lang :
  zero_division_policy ascii_only ascii_only true
    Fixture.formula_zero Fixture.formula_zero Fixture.formula_zero_1
    Fixture.formula_zero Fixture.formula_zero Fixture.formula_zero lang.
Proof. intros text _. repeat split. Qed.

(** C1 on a new instance, with the suffixes of [Fixture]: the float is
    [0.0] and the string "-1th and 0th grade". *)
Lemma text_standard_empty_string_example :
  let text_standard :=
    textstatistics_text_standard ascii_only ascii_only true
      Fixture.count_polysyllable_words Fixture.float_pow Fixture.py_round
      Fixture.get_grade_suffix
      Fixture.formula_zero Fixture.formula_zero Fixture.formula_zero_1
      Fixture.formula_zero Fixture.formula_zero Fixture.formula_zero
      new_textstatistics in
  text_standard [] true = Ret (Number 0%float)
  /\ text_standard [] false = Ret (Str (py "-1th and 0th grade"))
  /\ text_standard [] false <> Ret (Str (py "0th and 1st grade")).
Proof.
  intros text_standard.
  destruct (text_standard_empty_string ascii_only ascii_only true
              Fixture.count_polysyllable_words Fixture.float_pow
              Fixture.py_round Fixture.get_grade_suffix
              Fixture.formula_zero Fixture.formula_zero
              Fixture.formula_zero_1
              Fixture.formula_zero Fixture.formula_zero Fixture.formula_zero
              new_textstatistics eq_refl) as [Hfloat Hstr].
  split.
  - apply Hfloat. apply fixture_policy.
  - apply (Hstr []). apply Hfloat. apply fixture_policy.
Defined.

(** C2 on "Hi there.": the automated readability index votes -2 and -1,
    the reading ease 13, and 0 wins with twelve votes. *)
Lemma text_standard_consensus_example :
  (exists v,
     first_most_common [0; 0; 13; 0; 0; 0; 0; -2; -1; 0; 0; 0; 0; 0; 0] v
     /\ final_grade [0; 0; 13; 0; 0; 0; 0; -2; -1; 0; 0; 0; 0; 0; 0] = Ret v
     /\ text_standard ascii_only ascii_only true
          Fixture.count_polysyllable_words Fixture.float_pow
          Fixture.formula_zero Fixture.formula_zero Fixture.formula_zero_1
          Fixture.formula_zero Fixture.formula_zero Fixture.formula_zero
          (py "Hi there.") (py "en_US")
        = float_of_int v)
  /\ final_grade [2; 1; 3; 2; 1; 3] = Ret 2.
Proof.
  apply (text_standard_consensus ascii_only ascii_only true
           Fixture.count_polysyllable_words Fixture.float_pow
           Fixture.formula_zero Fixture.formula_zero Fixture.formula_zero_1
           Fixture.formula_zero Fixture.formula_zero Fixture.formula_zero
           (py "Hi there.") (py "en_US")).
  vm_compute. reflexivity.
Defined.

(** C3 on some scores. *)
Example fre_votes_examples :
  fre_votes 65.5 = [8; 9] /\ fre_votes 90 = [5] /\ fre_votes 100 = [13]
  /\ fre_votes 29.99 = [13] /\ fre_votes 206.835 = [13]
  /\ fre_votes nan = [13] /\ fre_votes neg_infinity = [13].
Proof. vm_compute. repeat split. Qed.


(** C7 as stated fails on "?!...": the text has no word and
    [chars_per_word] does not return [0.0]. *)
Lemma formulas_without_words_counterexample :
  ~ (count_words ascii_only ascii_only true (py "?!...") true = 0 ->
     chars_per_word ascii_only ascii_only true (py "?!...") true
     = Ret (Float 0%float)).
Proof.
  intros H. specialize (H eq_refl). vm_compute in H. discriminate H.
Qed.

(** C7, amended, on "?!", a text without words. *)
Lemma formulas_without_words_example :
  automated_readability_index ascii_only ascii_only true (py "?!")
  = Ret 0%float
  /\ smog_index ascii_only ascii_only true
       Fixture.count_polysyllable_words Fixture.float_pow
       (py "?!") (py "en_US")
     = Ret 0%float
  /\ chars_per_word ascii_only ascii_only true (py "?!") true
     = Ret (Int 2).
Proof.
  exact (proj1 (formulas_without_words ascii_only ascii_only true
                  Fixture.count_polysyllable_words Fixture.float_pow
                  (py "?!") (py "en_US") true) eq_refl).
Defined.

(** C9 on "One two three four" and "?!". *)
Lemma count_sentences_monotone_example :
  count_sentences ascii_only ascii_only true (py "One two three four")
  <= count_sentences ascii_only ascii_only true
       (py "One two three four" ++ py "?!").
Proof.
  apply count_sentences_monotone.
  - discriminate.
  - reflexivity.
Defined.

(** C10 on "?!...": no word, five characters. *)
Lemma chars_per_word_without_words_example :
  chars_per_word ascii_only ascii_only true (py "?!...") true = Ret (Int 5)
  /\ chars_per_word ascii_only ascii_only true (py "?!...") true
     <> Ret (Float 0%float).
Proof.
  apply (chars_per_word_without_words ascii_only ascii_only true
           (py "?!...") true).
  - reflexivity.
  - reflexivity.
Defined.

(** The counters of C4 on examples. *)
Example counters_examples :
  count_monosyllable_words Fixture.list_words Fixture.count_syllables
    (py "a b c") (py "en_US") = 3
  /\ count_arabic_long_words ascii_only ascii_only (py "abcdef abc") = 1
  /\ count_sentences ascii_only ascii_only true
       (py "Hello there my friend. How are you doing today? Fine.") = 2
  /\ count_arabic_syllables ascii_only ascii_only [0x0628]%N = -1.
Proof. vm_compute. repeat split. Qed.

(* ================================================================== *)
(** * The further properties on examples *)
(* ================================================================== *)

(** X2 on a text of two sentences behind spaces, dashes and marks. *)
Lemma count_sentences_leading_example :
  count_sentences ascii_only ascii_only true
    (py " -- ?! " ++ py "One two three. Four five six.")
  = count_sentences ascii_only ascii_only true
      (py "One two three. Four five six.")
  /\ count_sentences ascii_only ascii_only true (py " -- ?! ") = 1.
Proof.
  apply (count_sentences_leading ascii_only ascii_only true
           (py " -- ?! ") (py "One two three. Four five six.")).
  vm_compute. reflexivity.
Defined.

(** X5 on the score 2.5, which votes 2 and 3. *)
Lemma floor_and_ceil_votes_example :
  exists lower upper,
    [7; 2; 3] = [7] ++ [lower; upper]
    /\ floor 2.5 = Ret lower /\ ceil 2.5 = Ret upper
    /\ is_floor_of 2.5 lower /\ is_ceil_of 2.5 upper
    /\ lower <= upper <= lower + 1.
Proof.
  apply (floor_and_ceil_votes 2.5%float [7] [7; 2; 3]).
  vm_compute. reflexivity.
Defined.

(** X7 with a Flesch-Kincaid grade that is not a number. *)
Lemma text_standard_not_finite_example :
  text_standard ascii_only ascii_only true
    Fixture.count_polysyllable_words Fixture.float_pow
    Fixture.formula_nan Fixture.formula_zero Fixture.formula_zero_1
    Fixture.formula_zero Fixture.formula_zero Fixture.formula_zero
    (py "Hi there.") (py "en_US")
  = Raise ValueError
  /\ textstatistics_text_standard ascii_only ascii_only true
       Fixture.count_polysyllable_words Fixture.float_pow Fixture.py_round
       Fixture.get_grade_suffix
       Fixture.formula_nan Fixture.formula_zero Fixture.formula_zero_1
       Fixture.formula_zero Fixture.formula_zero Fixture.formula_zero
       new_textstatistics (py "Hi there.") false
     = Raise ValueError.
Proof.
  exact (text_standard_not_finite ascii_only ascii_only true
           Fixture.count_polysyllable_words Fixture.float_pow
           Fixture.py_round Fixture.get_grade_suffix
           Fixture.formula_nan Fixture.formula_zero Fixture.formula_zero_1
           Fixture.formula_zero Fixture.formula_zero Fixture.formula_zero
           new_textstatistics (py "Hi there.") nan false
           eq_refl eq_refl).
Defined.

(** X8 on "Hi there.": the reading ease 0.0 votes once, 15 votes. *)
Lemma text_standard_grade_length_example :
  exists score,
    Fixture.formula_zero (py "Hi there.") (py "en_US") = Ret score
    /\ List.length [0; 0; 13; 0; 0; 0; 0; -2; -1; 0; 0; 0; 0; 0; 0]
       = if ge score 60 && lt score 70 then 16%nat else 15%nat.
Proof.
  apply (text_standard_grade_length ascii_only ascii_only true
           Fixture.count_polysyllable_words Fixture.float_pow
           Fixture.formula_zero Fixture.formula_zero Fixture.formula_zero_1
           Fixture.formula_zero Fixture.formula_zero Fixture.formula_zero
           (py "Hi there.") (py "en_US")).
  vm_compute. reflexivity.
Defined.

(** X12 on "Hi there.": the consensus is 0, the float [0.0] and the
    string "-1th and 0th grade". *)
Lemma text_standard_band_example :
  let text_standard :=
    textstatistics_text_standard ascii_only ascii_only true
      Fixture.count_polysyllable_words Fixture.float_pow Fixture.py_round
      Fixture.get_grade_suffix
      Fixture.formula_zero Fixture.formula_zero Fixture.formula_zero_1
      Fixture.formula_zero Fixture.formula_zero Fixture.formula_zero
      new_textstatistics in
  text_standard (py "Hi there.") true = Ret (Number 0%float)
  /\ text_standard (py "Hi there.") false
     = Ret (Str (py "-1th and 0th grade")).
Proof.
  intros text_standard.
  destruct (text_standard_band ascii_only ascii_only true
              Fixture.count_polysyllable_words Fixture.float_pow
              Fixture.py_round Fixture.get_grade_suffix
              Fixture.formula_zero Fixture.formula_zero
              Fixture.formula_zero_1
              Fixture.formula_zero Fixture.formula_zero Fixture.formula_zero
              new_textstatistics (py "Hi there.") 0%float eq_refl)
    as (grade & g & _ & _ & _ & Hg & Hfloat & Hstr).
  injection Hg as <-.
  split; [exact Hfloat | exact Hstr].
Defined.
